(** * go-json5: the streaming JSON5-to-JSON reader (reader.go)

    A shallow embedding of [Reader] and of its lexing state functions,
    with the properties of the translation that the specification states.

    Runes are code points held in [Z]; bytes are 8-bit values held in [Z].
    The Go channel [r.tokens] (capacity 3) is a bounded FIFO whose send
    blocks when it is full; since the reader is single-threaded a blocked
    send is a deadlock, and it is an outcome of its own ([Blocked]). *)

From Stdlib Require Import ZArith List String Ascii Bool Lia DecimalString.
Import ListNotations.
Local Open Scope Z_scope.

Definition rune := Z.
Definition byte := Z.

(** The rune of an ASCII character, and the runes of an ASCII literal. *)
Definition rn (a : ascii) : rune := Z.of_nat (nat_of_ascii a).

Definition runes (s : string) : list rune := map rn (list_ascii_of_string s).

(** The double quote, U+0022. *)
Definition dquote : rune := 34.

(** ** Errors *)

(** Go [error] values that reach the reader: [io.EOF], any other error of
    the underlying source, the two errors the lexer creates
    ([errors.New] at reader.go:317 and [fmt.Errorf] at reader.go:247), and
    the [*LexingError] wrapper of reader.go:15-19. *)
Inductive error : Type :=
| io_EOF
| SourceError (msg : string)
| errors_New (msg : string)
| UnexpectedCharacter (b : rune)
| LexingError (Line Column : Z) (Err : error).

Definition is_EOF (e : error) : bool :=
  match e with io_EOF => true | _ => false end.

(** ** Outcomes of running reader code *)

(** [Blocked]: a send on the full token channel (nobody else can receive).
    [Panic]: the [panic] of reader.go:301, or the run-time panic of a
    slice expression in the caller of [Read].  [OutOfFuel]: a loop of the
    model ran out of its iteration budget; the budgets are shown to
    suffice. *)
Inductive result (A : Type) : Type :=
| Ok (a : A)
| Blocked
| Panic (msg : string)
| OutOfFuel.
Arguments Ok {A} a.
Arguments Blocked {A}.
Arguments Panic {A} msg.
Arguments OutOfFuel {A}.

Definition bind {A B} (c : result A) (k : A -> result B) : result B :=
  match c with
  | Ok a => k a
  | Blocked => Blocked
  | Panic m => Panic m
  | OutOfFuel => OutOfFuel
  end.

Notation "x <- c ;; k" := (bind c (fun x => k))
  (at level 61, c at next level, right associativity).

(** ** The Go library functions the reader calls *)

Module unicode.

(** The tables of Go's [unicode] package that the lexer consults:
    [IsSpace], [IsLetter], and membership in the range tables
    [L, Nl, Nd, Mn, Mc, Pc] (reader.go:237).  The reader is verified
    for arbitrary tables. *)
Class Tables : Type := {
  IsSpace : rune -> bool;
  IsLetter : rune -> bool;
  In_L_Nl_Nd_Mn_Mc_Pc : rune -> bool
}.

Definition between (lo hi r : rune) : bool := (lo <=? r) && (r <=? hi).

(** [unicode.IsSpace]: the Latin-1 spaces and the White_Space property. *)
Definition go_IsSpace (r : rune) : bool :=
  between 9 13 r || (r =? 32) || (r =? 133) || (r =? 160)
  || (r =? 5760) || between 8192 8202 r || (r =? 8232) || (r =? 8233)
  || (r =? 8239) || (r =? 8287) || (r =? 12288).

(** The letters of Latin-1 (category L below U+0100). *)
Definition latin1_IsLetter (r : rune) : bool :=
  between 65 90 r || between 97 122 r || (r =? 170) || (r =? 181)
  || (r =? 186) || between 192 214 r || between 216 246 r
  || between 248 255 r.

(** Below U+0100 the categories Nl, Mn and Mc are empty, Nd is the ASCII
    digits and Pc is the underscore. *)
Definition latin1_In_L_Nl_Nd_Mn_Mc_Pc (r : rune) : bool :=
  latin1_IsLetter r || between 48 57 r || (r =? 95).

(** The tables restricted to Latin-1 for the two large ones; they agree
    with Go's on every rune below U+0100 and are used to run the reader
    on concrete documents. *)
Definition Latin1 : Tables := {|
  IsSpace := go_IsSpace;
  IsLetter := latin1_IsLetter;
  In_L_Nl_Nd_Mn_Mc_Pc := latin1_In_L_Nl_Nd_Mn_Mc_Pc
|}.

End unicode.

Module utf8.

Definition UTFMax : nat := 4.
Definition RuneError : rune := 65533.

(** Go's conversions [uint32(r)] and [byte(x)]. *)
Definition uint32 (r : Z) : Z := r mod 2 ^ 32.
Definition to_byte (x : Z) : byte := x mod 256.

(** [utf8.EncodeRune]: the bytes written for [r] (their number is the
    function's return value). *)
Definition EncodeRune (r : rune) : list byte :=
  let i := uint32 r in
  if i <=? 127 then [to_byte r]
  else if i <=? 2047 then
    [Z.lor 192 (to_byte (Z.shiftr r 6));
     Z.lor 128 (Z.land (to_byte r) 63)]
  else
    let r := if (i >? 1114111) || ((55296 <=? i) && (i <=? 57343))
             then RuneError else r in
    if (i >? 1114111) || ((55296 <=? i) && (i <=? 57343)) || (i <=? 65535)
    then
      [Z.lor 224 (to_byte (Z.shiftr r 12));
       Z.lor 128 (Z.land (to_byte (Z.shiftr r 6)) 63);
       Z.lor 128 (Z.land (to_byte r) 63)]
    else
      [Z.lor 240 (to_byte (Z.shiftr r 18));
       Z.lor 128 (Z.land (to_byte (Z.shiftr r 12)) 63);
       Z.lor 128 (Z.land (to_byte (Z.shiftr r 6)) 63);
       Z.lor 128 (Z.land (to_byte r) 63)].

End utf8.

Module strings.

Fixpoint index_from (i : Z) (s : list rune) (r : rune) : Z :=
  match s with
  | [] => -1
  | c :: s' => if c =? r then i else index_from (i + 1) s' r
  end.

(** [strings.IndexRune] on an ASCII string: the index of the first
    occurrence of [r], or -1. *)
Definition IndexRune (s : string) (r : rune) : Z := index_from 0 (runes s) r.

End strings.

Module strconv.

Inductive NumError : Type := ErrSyntax | ErrRange.

(** The digit value of a byte as [strconv.ParseUint] reads it, if any. *)
Definition digit (c : byte) : option Z :=
  if (48 <=? c) && (c <=? 57) then Some (c - 48)
  else
    let l := Z.lor c 32 in
    if (97 <=? l) && (l <=? 122) then Some (l - 97 + 10) else None.

(** The digit loop of [strconv.ParseUint(s, 16, 64)]: [n] is the value
    read so far. *)
Fixpoint ParseUint_loop (s : list byte) (n : Z) : Z + NumError :=
  match s with
  | [] => inl n
  | c :: s' =>
    match digit c with
    | None => inr ErrSyntax
    | Some d =>
      if d >=? 16 then inr ErrSyntax
      else if n >=? (2 ^ 64 - 1) / 16 + 1 then inr ErrRange
      else
        let n1 := n * 16 + d in
        if n1 >? 2 ^ 64 - 1 then inr ErrRange
        else ParseUint_loop s' n1
    end
  end.

Definition ParseUint16 (s : list byte) : Z + NumError :=
  match s with
  | [] => inr ErrSyntax
  | _ => ParseUint_loop s 0
  end.

(** [strconv.ParseInt(s, 16, 64)]. *)
Definition ParseInt16 (s : list byte) : Z + NumError :=
  match s with
  | [] => inr ErrSyntax
  | c :: s' =>
    let neg := c =? 45 in
    let body := if (c =? 43) || (c =? 45) then s' else s in
    match ParseUint16 body with
    | inr e => inr e
    | inl un =>
      let cutoff := 2 ^ 63 in
      if negb neg && (un >=? cutoff) then inr ErrRange
      else if neg && (un >? cutoff) then inr ErrRange
      else inl (if neg then - un else un)
    end
  end.

(** [strconv.FormatInt(val, 10)]. *)
Definition FormatInt10 (val : Z) : list byte :=
  map (fun a => Z.of_nat (nat_of_ascii a))
      (list_ascii_of_string (NilZero.string_of_int (Z.to_int val))).

End strconv.

(** ** The rune source *)

(** An [io.RuneScanner]: the runes still to come, the rune that
    [UnreadRune] can give back (the last one read, if nothing was unread
    since), and the error that [ReadRune] returns once the runes are
    exhausted ([io.EOF] for a source that ends normally). *)
Record RuneScanner : Type := {
  pending : list rune;
  last : option rune;
  final : error
}.

Definition ReadRune (s : RuneScanner) : RuneScanner * (rune + error) :=
  match pending s with
  | [] => ({| pending := []; last := None; final := final s |}, inr (final s))
  | c :: rest =>
    ({| pending := rest; last := Some c; final := final s |}, inl c)
  end.

(** [UnreadRune] fails, and changes nothing, when there is no rune to give
    back; the reader ignores its result. *)
Definition UnreadRune (s : RuneScanner) : RuneScanner :=
  match last s with
  | None => s
  | Some c => {| pending := c :: pending s; last := None; final := final s |}
  end.

(** ** Tokens and reader state *)

Inductive tokenType : Type := tokenError | tokenRune | tokenNumber.

Record token : Type := {
  typ : tokenType;
  val : rune;
  num : list byte;
  err : option error
}.

(** The state functions; [St_err e] is the closure [fn] that [Reader.err]
    builds around the (possibly wrapped) error [e]. *)
Inductive stateFunc : Type :=
| St_lex
| St_lexIdentifier
| St_lexNumber
| St_lexHex
| St_lexString
| St_lexLineComment
| St_err (e : error).

Record Reader : Type := mkReader {
  rd : RuneScanner;
  state : stateFunc;
  line : Z;
  col : Z;
  lastcol : Z;
  quote : rune;
  comma : bool;
  noident : bool;
  remain : list byte;
  tokens : list token
}.

Definition set_rd (s : RuneScanner) (r : Reader) : Reader :=
  mkReader s (state r) (line r) (col r) (lastcol r) (quote r) (comma r)
           (noident r) (remain r) (tokens r).
Definition set_state (f : stateFunc) (r : Reader) : Reader :=
  mkReader (rd r) f (line r) (col r) (lastcol r) (quote r) (comma r)
           (noident r) (remain r) (tokens r).
Definition set_pos (l c lc : Z) (r : Reader) : Reader :=
  mkReader (rd r) (state r) l c lc (quote r) (comma r)
           (noident r) (remain r) (tokens r).
Definition set_quote (q : rune) (r : Reader) : Reader :=
  mkReader (rd r) (state r) (line r) (col r) (lastcol r) q (comma r)
           (noident r) (remain r) (tokens r).
Definition set_comma (b : bool) (r : Reader) : Reader :=
  mkReader (rd r) (state r) (line r) (col r) (lastcol r) (quote r) b
           (noident r) (remain r) (tokens r).
Definition set_noident (b : bool) (r : Reader) : Reader :=
  mkReader (rd r) (state r) (line r) (col r) (lastcol r) (quote r) (comma r)
           b (remain r) (tokens r).
Definition set_remain (bs : list byte) (r : Reader) : Reader :=
  mkReader (rd r) (state r) (line r) (col r) (lastcol r) (quote r) (comma r)
           (noident r) bs (tokens r).
Definition set_tokens (q : list token) (r : Reader) : Reader :=
  mkReader (rd r) (state r) (line r) (col r) (lastcol r) (quote r) (comma r)
           (noident r) (remain r) q.

(** Go's [int] is 64 bits wide: [r.line++] and [r.col + 1] wrap around. *)
Definition int_wrap (x : Z) : Z := (x + 2 ^ 63) mod 2 ^ 64 - 2 ^ 63.
Definition int_succ (x : Z) : Z := int_wrap (x + 1).

(** [NewReader] over a rune source (reader.go:46-59). *)
Definition NewReader (src : RuneScanner) : Reader :=
  mkReader src St_lex 1 0 0 0 false false [] [].

(** A source holding the runes [doc] and then ending with [io.EOF]. *)
Definition source (doc : list rune) : RuneScanner :=
  {| pending := doc; last := None; final := io_EOF |}.

(** The capacity of [r.tokens] (reader.go:57). *)
Definition tokens_cap : nat := 3.

(** A channel send [r.tokens <- t]. *)
Definition send (t : token) (r : Reader) : result Reader :=
  if (List.length (tokens r) <? tokens_cap)%nat
  then Ok (set_tokens (tokens r ++ [t]) r)
  else Blocked.

Definition emit (ty : tokenType) (v : rune) (r : Reader) : result Reader :=
  send {| typ := ty; val := v; num := []; err := None |} r.

(** [Reader.err] (reader.go:106-117): the error sink for [e]. *)
Definition wrap_err (r : Reader) (e : error) : error :=
  if is_EOF e then e else LexingError (line r) (col r) e.

Definition Reader_err (r : Reader) (e : error) : stateFunc :=
  St_err (wrap_err r e).

(** The step of the sink [fn] (reader.go:112-115). *)
Definition err_fn (e : error) (r : Reader) : result (stateFunc * Reader) :=
  r <- send {| typ := tokenError; val := 0; num := []; err := Some e |} r ;;
  Ok (St_err e, r).

Definition newline : rune := 10.

(** [Reader.pop] (reader.go:125-137). *)
Definition pop (r : Reader) : Reader * (rune + error) :=
  match ReadRune (rd r) with
  | (s, inr e) => (set_rd s r, inr e)
  | (s, inl next) =>
    let r := set_rd s r in
    if next =? newline
    then (set_pos (int_succ (line r)) 0 (col r) r, inl next)
    else (set_pos (line r) (int_succ (col r)) (col r) r, inl next)
  end.

(** [Reader.push] (reader.go:139-142). *)
Definition push (r : Reader) : Reader :=
  let r := set_rd (UnreadRune (rd r)) r in
  set_pos (line r) (lastcol r) (lastcol r) r.

(** [Reader.peek] (reader.go:119-123). *)
Definition peek (r : Reader) : Reader * (rune + error) :=
  let (r, res) := pop r in (push r, res).

(** [Reader.maybeEmitComma] (reader.go:144-149). *)
Definition maybeEmitComma (r : Reader) : result Reader :=
  r <- (if comma r then emit tokenRune (rn ",") r else Ok r) ;;
  Ok (set_comma false r).

(** ** The lexing state functions *)

Section Lexer.

Context {U : unicode.Tables}.

(** Membership tests written [strings.IndexRune(set, b) == -1] in Go. *)
Definition not_in (set : string) (b : rune) : bool :=
  strings.IndexRune set b =? -1.

(** The whitespace loop of [lex] (reader.go:207-214). *)
Fixpoint lex_spaces (fuel : nat) (b : rune) (r : Reader)
  : result (stateFunc * Reader) :=
  if unicode.IsSpace b then
    match fuel with
    | O => OutOfFuel
    | S fuel =>
      match pop r with
      | (r, inr e) => Ok (Reader_err r e, r)
      | (r, inl b) => lex_spaces fuel b r
      end
    end
  else Ok (St_lex, push r).

(** [Reader.lex] (reader.go:151-229). *)
Definition lex (r : Reader) : result (stateFunc * Reader) :=
  match pop r with
  | (r, inr e) => Ok (Reader_err r e, r)
  | (r, inl b) =>
    if (b =? dquote) || (b =? rn "'") then
      r <- maybeEmitComma r ;;
      let r := set_quote b r in
      r <- emit tokenRune dquote r ;;
      Ok (St_lexString, r)
    else if b =? rn "/" then
      match pop r with
      | (r, inr e) => Ok (Reader_err r e, r)
      | (r, inl next) =>
        if next =? rn "/" then Ok (St_lexLineComment, r)
        else Ok (St_lex, push r)
      end
    else if b =? rn "," then
      Ok (St_lex, set_noident false (set_comma true r))
    else if (b =? rn "{") || (b =? rn "[") then
      r <- maybeEmitComma r ;;
      let r := set_noident false r in
      r <- emit tokenRune b r ;;
      Ok (St_lex, r)
    else if (b =? rn "}") || (b =? rn "]") then
      let r := set_noident false (set_comma false r) in
      r <- emit tokenRune b r ;;
      Ok (St_lex, r)
    else if b =? rn "+" then
      Ok (St_lex, r)
    else if b =? rn "0" then
      r <- maybeEmitComma r ;;
      match pop r with
      | (r, inr e) => Ok (Reader_err r e, r)
      | (r, inl next) =>
        if (next =? rn "x") || (next =? rn "X") then Ok (St_lexHex, r)
        else
          r <- emit tokenRune b r ;;
          Ok (St_lex, push r)
      end
    else if b =? rn "." then
      r <- maybeEmitComma r ;;
      r <- emit tokenRune (rn "0") r ;;
      r <- emit tokenRune (rn ".") r ;;
      Ok (St_lexNumber, r)
    else if b =? rn ":" then
      let r := set_noident true r in
      r <- emit tokenRune (rn ":") r ;;
      Ok (St_lex, r)
    else if unicode.IsSpace b then
      lex_spaces (S (List.length (pending (rd r)))) b r
    else
      r <- maybeEmitComma r ;;
      if (negb (noident r) && unicode.IsLetter b)
         || (b =? rn "$") || (b =? rn "_") || (b =? rn "\")
      then
        r <- emit tokenRune dquote r ;;
        r <- emit tokenRune b r ;;
        Ok (St_lexIdentifier, r)
      else if ((b >? rn "0") && (b <? rn "9"))
              || (b =? rn ".") || (b =? rn "+")
      then Ok (St_lexNumber, push r)
      else
        r <- emit tokenRune b r ;;
        Ok (St_lex, r)
  end.

(** [Reader.lexIdentifier] (reader.go:231-249). *)
Definition lexIdentifier (r : Reader) : result (stateFunc * Reader) :=
  match pop r with
  | (r, inr e) => Ok (Reader_err r e, r)
  | (r, inl b) =>
    if unicode.In_L_Nl_Nd_Mn_Mc_Pc b
       || (b =? rn "$") || (b =? rn "_") || (b =? rn "\")
       || (b =? 8204) || (b =? 8205)
    then
      r <- emit tokenRune b r ;;
      Ok (St_lexIdentifier, r)
    else if b =? rn ":" then
      r <- emit tokenRune dquote r ;;
      Ok (St_lex, push r)
    else Ok (Reader_err r (UnexpectedCharacter b), r)
  end.

(** [Reader.lexNumber] (reader.go:251-284). *)
Definition lexNumber (r : Reader) : result (stateFunc * Reader) :=
  match pop r with
  | (r, inr e) => Ok (Reader_err r e, r)
  | (r, inl b) =>
    if b =? rn "." then
      match pop r with
      | (r, inr e) => Ok (Reader_err r e, r)
      | (r, inl next) =>
        if not_in "0123456789" next then
          let r := push r in
          r <- emit tokenRune (rn ".") r ;;
          r <- emit tokenRune (rn "0") r ;;
          Ok (St_lexNumber, r)
        else Ok (St_lexNumber, r)
      end
    else if not_in "0123456789eE.+-" b then
      Ok (St_lex, push r)
    else if (b =? rn "e") || (b =? rn "E") then
      match pop r with
      | (r, inr e) => Ok (Reader_err r e, r)
      | (r, inl next) =>
        let r := if negb (next =? rn "+") then push r else r in
        r <- emit tokenRune b r ;;
        Ok (St_lexNumber, r)
      end
    else
      r <- emit tokenRune b r ;;
      Ok (St_lexNumber, r)
  end.

(** The code of [lexHex] after its loop (reader.go:299-304); [out] is
    the content of the [bytes.Buffer]. *)
Definition lexHex_parse (out : list byte) (r : Reader)
  : result (stateFunc * Reader) :=
  match strconv.ParseInt16 out with
  | inr _ => Panic "programming error: we lexed a non-hexadecimal number"
  | inl v =>
    r <- send {| typ := tokenNumber; val := 0;
                 num := strconv.FormatInt10 v; err := None |} r ;;
    Ok (St_lex, r)
  end.

(** The digit loop of [lexHex] (reader.go:288-298); [out.WriteRune(b)]
    appends the UTF-8 encoding of [b]. *)
Fixpoint lexHex_loop (fuel : nat) (out : list byte) (r : Reader)
  : result (stateFunc * Reader) :=
  match fuel with
  | O => OutOfFuel
  | S fuel =>
    match pop r with
    | (r, inr e) => Ok (Reader_err r e, r)
    | (r, inl b) =>
      if not_in "0123456789abcdefABCDEF" b
      then lexHex_parse out (push r)
      else lexHex_loop fuel (out ++ utf8.EncodeRune b) r
    end
  end.

(** [Reader.lexHex] (reader.go:286-305). *)
Definition lexHex (r : Reader) : result (stateFunc * Reader) :=
  lexHex_loop (S (List.length (pending (rd r)))) [] r.

(** [Reader.lexString] (reader.go:307-339). *)
Definition lexString (r : Reader) : result (stateFunc * Reader) :=
  match pop r with
  | (r, inr e) => Ok (Reader_err r e, r)
  | (r, inl b) =>
    if b =? quote r then
      r <- emit tokenRune dquote r ;;
      Ok (St_lex, r)
    else if (b =? newline) || (b =? 13) then
      Ok (Reader_err r (errors_New "unexpected newline"), r)
    else if b =? rn "\" then
      match pop r with
      | (r, inr e) => Ok (Reader_err r e, r)
      | (r, inl next) =>
        r <- emit tokenRune (rn "\") r ;;
        r <- (if next =? newline then emit tokenRune (rn "n") r
              else emit tokenRune next r) ;;
        Ok (St_lexString, r)
      end
    else if b =? dquote then
      r <- emit tokenRune (rn "\") r ;;
      r <- emit tokenRune b r ;;
      Ok (St_lexString, r)
    else
      r <- emit tokenRune b r ;;
      Ok (St_lexString, r)
  end.

(** The loop of [Reader.lexLineComment] (reader.go:341-351). *)
Fixpoint lexLineComment_loop (fuel : nat) (r : Reader)
  : result (stateFunc * Reader) :=
  match fuel with
  | O => OutOfFuel
  | S fuel =>
    match pop r with
    | (r, inr e) => Ok (Reader_err r e, r)
    | (r, inl b) =>
      if b =? newline then Ok (St_lex, r) else lexLineComment_loop fuel r
    end
  end.

Definition lexLineComment (r : Reader) : result (stateFunc * Reader) :=
  lexLineComment_loop (S (List.length (pending (rd r)))) r.

(** Calling a state function. *)
Definition call (f : stateFunc) (r : Reader) : result (stateFunc * Reader) :=
  match f with
  | St_lex => lex r
  | St_lexIdentifier => lexIdentifier r
  | St_lexNumber => lexNumber r
  | St_lexHex => lexHex r
  | St_lexString => lexString r
  | St_lexLineComment => lexLineComment r
  | St_err e => err_fn e r
  end.

(** One machine step: [r.state = r.state(r)] (reader.go:95). *)
Definition step (r : Reader) : result Reader :=
  fr <- call (state r) r ;;
  Ok (set_state (fst fr) (snd fr)).

(** [Reader.next] (reader.go:89-98): receive a token if one is queued,
    otherwise step the machine and try again. *)
Fixpoint next_loop (fuel : nat) (r : Reader) : result (token * Reader) :=
  match tokens r with
  | tok :: q => Ok (tok, set_tokens q r)
  | [] =>
    match fuel with
    | O => OutOfFuel
    | S fuel => r <- step r ;; next_loop fuel r
    end
  end.

Definition next_fuel (r : Reader) : nat :=
  (3 * List.length (pending (rd r)) + 4)%nat.

Definition next (r : Reader) : result (token * Reader) :=
  next_loop (next_fuel r) r.

(** What one [Read] call returns: the reader afterwards, the bytes it
    stored in the buffer (from index 0), the count [n] and the error. *)
Record ReadResult : Type := {
  reader : Reader;
  written : list byte;
  n : nat;
  rerr : option error
}.

(** The loop of [Reader.Read] (reader.go:65-85) on a buffer of length
    [C]; [buf] holds the bytes stored so far. *)
Fixpoint Read_loop (fuel : nat) (C : nat) (buf : list byte) (i : nat)
         (r : Reader) : result ReadResult :=
  if (i <? C)%nat then
    match fuel with
    | O => OutOfFuel
    | S fuel =>
      tr <- next r ;;
      let tok := fst tr in
      let r := snd tr in
      match typ tok with
      | tokenError =>
        Ok {| reader := r; written := buf; n := i; rerr := err tok |}
      | tokenRune =>
        let encoded := utf8.EncodeRune (val tok) in
        let l := List.length encoded in
        let copied := Nat.min (C - i) l in
        let r := if (copied <? l)%nat
                 then set_remain (skipn copied encoded) r else r in
        Read_loop fuel C (buf ++ firstn copied encoded) (i + l)%nat r
      | tokenNumber =>
        let copied := Nat.min (C - i) (List.length (num tok)) in
        let r := if (copied <? List.length (num tok))%nat
                 then set_remain (skipn copied (num tok)) r else r in
        Read_loop fuel C (buf ++ firstn copied (num tok)) (i + copied)%nat r
      end
    end
  else Ok {| reader := r; written := buf; n := i; rerr := None |}.

(** [Reader.Read] (reader.go:61-87) with a buffer of length [C]. *)
Definition Read (r : Reader) (C : nat) : result ReadResult :=
  let i := Nat.min C (List.length (remain r)) in
  let buf := firstn i (remain r) in
  let r' := set_remain [] r in
  Read_loop (C + List.length (tokens r)) C buf i r'.

(** A caller of [Read] in the way of [io.ReadAll] (used by the tests) and
    of the buffer refill of [json.Decoder] (decode.go:10): it calls [Read]
    with a buffer of length [C], keeps [buf[:n]] for the count [n] that
    [Read] returned, a slice expression that panics when [n] exceeds the
    length of the buffer, and goes on until [Read] returns an error. *)
Fixpoint ReadAll (calls : nat) (C : nat) (r : Reader)
  : result (list byte * option error) :=
  match calls with
  | O => OutOfFuel
  | S calls =>
    res <- Read r C ;;
    if (C <? n res)%nat then Panic "slice bounds out of range"
    else
      let got := firstn (n res) (written res) in
      match rerr res with
      | Some e => Ok (got, Some e)
      | None =>
        rest <- ReadAll calls C (reader res) ;;
        Ok (got ++ fst rest, snd rest)
      end
  end.

End Lexer.

Arguments lex_spaces {U} fuel b r : simpl never.

(** The translation of an ASCII-and-Latin-1 document read with buffers of
    length [C]. *)
Definition translate (C : nat) (doc : list rune)
  : result (list byte * option error) :=
  ReadAll (U := unicode.Latin1) (S (3 * List.length doc + 4)) C
          (NewReader (source doc)).

(** * Vocabulary of the properties *)

(** The reader after [pop] has read [b], with [rest] still to come. *)
Definition advance (b : rune) (rest : list rune) (r : Reader) : Reader :=
  mkReader {| pending := rest; last := Some b; final := final (rd r) |}
           (state r)
           (if b =? newline then int_succ (line r) else line r)
           (if b =? newline then 0 else int_succ (col r))
           (col r) (quote r) (comma r) (noident r) (remain r) (tokens r).

(** The reader after a [pop] that failed. *)
Definition exhausted (r : Reader) : Reader :=
  set_rd {| pending := []; last := None; final := final (rd r) |} r.

(** Tokens as the lexing states produce them: never an error token, and
    a number token carries at least one digit. *)
Definition lexed_token (t : token) : Prop :=
  typ t <> tokenError /\ (typ t = tokenNumber -> num t <> []).

(** The runes on which [lex] pushes back and hands over to [lexNumber]. *)
Definition starts_number (b : rune) : bool :=
  ((b >? rn "0") && (b <? rn "9")) || (b =? rn ".") || (b =? rn "+").

(** A bound on the steps a state can take before it must emit a token:
    three per pending rune, plus a weight that orders the two hand-overs
    that consume nothing ([lex] to [lexNumber] and back). *)
Definition weight (f : stateFunc) (inp : list rune) : nat :=
  match f with
  | St_err _ => 0
  | St_lexNumber => 2
  | St_lex =>
    match inp with
    | b :: _ => if starts_number b then 3 else 1
    | [] => 1
    end
  | _ => 1
  end.

(** The measure of state [f] on the input of [r]. *)
Definition measure (f : stateFunc) (r : Reader) : nat :=
  3 * List.length (pending (rd r)) + weight f (pending (rd r)).

(** What a lexing state [f], called on [r] with an empty queue, returns:
    at most three tokens, all lexed; an error sink built at the position
    reached; a smaller measure if no token was queued; the carry buffer
    untouched.  Only [lexHex] can panic. *)
Definition step_post (f : stateFunc) (r : Reader)
           (res : result (stateFunc * Reader)) : Prop :=
  match res with
  | Ok (f', r') =>
    (List.length (tokens r') <= 3)%nat
    /\ Forall lexed_token (tokens r')
    /\ (forall e, f' = St_err e -> exists cause, e = wrap_err r' cause)
    /\ (tokens r' <> [] \/ (measure f' r' < measure f r)%nat)
    /\ remain r' = remain r
  | Panic _ => f = St_lexHex
  | Blocked | OutOfFuel => False
  end.

Arguments measure f r : simpl never.

(** The token that the sink of [e] sends (reader.go:113). *)
Definition error_token (e : error) : token :=
  {| typ := tokenError; val := 0; num := []; err := Some e |}.

(** An error sink holds an error that [Reader.err] built at the reader's
    present position. *)
Definition sink_wrapped (r : Reader) : Prop :=
  forall e, state r = St_err e -> exists cause, e = wrap_err r cause.

(** The invariant of the reader between two calls of [next]. *)
Definition Inv (r : Reader) : Prop :=
  Forall lexed_token (tokens r) /\ sink_wrapped r.

(** The token of [r.emit(tokenRune, v)]. *)
Definition rune_token (v : rune) : token :=
  {| typ := tokenRune; val := v; num := []; err := None |}.

(** The runes that have a case of their own in the switch of [lex]. *)
Definition structural (b : rune) : bool :=
  (b =? dquote) || (b =? rn "'") || (b =? rn "/") || (b =? rn ",")
  || (b =? rn "{") || (b =? rn "[") || (b =? rn "}") || (b =? rn "]")
  || (b =? rn "+") || (b =? rn "0") || (b =? rn ".") || (b =? rn ":").

(** Reader states that [Read] calls can reach from a new reader. *)
Inductive reachable {U : unicode.Tables} : Reader -> Prop :=
| reach_new (src : RuneScanner) : reachable (NewReader src)
| reach_Read (r : Reader) (C : nat) (res : ReadResult) :
    reachable r -> Read r C = Ok res -> reachable (reader res).

(** A rune that starts content in [lex]: a quote, an opener, [0], [.],
    or any rune without a case of its own that is not a space. *)
Definition starts_content {U : unicode.Tables} (b : rune) : bool :=
  (b =? dquote) || (b =? rn "'") || (b =? rn "{") || (b =? rn "[")
  || (b =? rn "0") || (b =? rn ".")
  || (negb (structural b) && negb (unicode.IsSpace b)).

(** The state function returned, the comma is the first token queued and
    the flag is cleared. *)
Definition comma_first (res : result (stateFunc * Reader)) : Prop :=
  exists f r' q,
    res = Ok (f, r') /\ tokens r' = rune_token (rn ",") :: q
    /\ comma r' = false.

(** The state function returned and queued no comma. *)
Definition no_comma (res : result (stateFunc * Reader)) : Prop :=
  exists f r',
    res = Ok (f, r')
    /\ Forall (fun t => val t <> rn ",") (tokens r').

(** The state function returned, queued nothing and left the
    pending-comma flag as it was. *)
Definition kept_pending (r : Reader) (res : result (stateFunc * Reader))
  : Prop :=
  exists f r',
    res = Ok (f, r') /\ tokens r' = [] /\ comma r' = comma r.

(** The position of the rune that follows [pre] in a document: lines
    count from 1, columns from 0. *)
Definition src_pos (pre : list rune) : Z * Z :=
  fold_left (fun p b => if b =? newline then (fst p + 1, 0)
                        else (fst p, snd p + 1))
            pre (1, 0).

(** ** The causes of faults *)




(** ** Vocabulary of the further properties *)

(** The UTF-8 bytes of a run of runes, as [Read] stores them. *)
Definition encode (rs : list rune) : list byte :=
  flat_map utf8.EncodeRune rs.

(** The comma that [maybeEmitComma] sends for [r], if any. *)
Definition pending_comma (r : Reader) : list rune :=
  if comma r then [rn ","] else [].

(** The digit test of [lexHex] (reader.go:293). *)
Definition is_hex (b : rune) : bool :=
  negb (strings.IndexRune "0123456789abcdefABCDEF" b =? -1).

(** The number that a run of hexadecimal digits denotes. *)
Definition hex_digit_value (b : rune) : Z :=
  match strconv.digit b with Some d => d | None => 0 end.

Definition hex_value (ds : list rune) : Z :=
  fold_left (fun v b => v * 16 + hex_digit_value b) ds 0.

(** The token that [lexHex] sends for the decimal text [s]. *)
Definition number_token (s : list byte) : token :=
  {| typ := tokenNumber; val := 0; num := s; err := None |}.

(** What [strconv] and [utf8] do with a rune that passes the digit test
    of [lexHex]. *)
Definition hex_rune (b : rune) : Prop :=
  utf8.EncodeRune b = [b]
  /\ (exists d, strconv.digit b = Some d /\ 0 <= d < 16)
  /\ (b =? 43) = false /\ (b =? 45) = false.

(** The value of the digits [ds] read after the value [v]. *)
Definition value_from (v : Z) (ds : list rune) : Z :=
  fold_left (fun v b => v * 16 + hex_digit_value b) ds v.

(** [emits r toks r']: from [r], whose queue is empty, the machine takes
    one or more steps, the last of which queues at least one token; the
    tokens queued are [toks], in this order, and [r'] is the reader after
    the last step with its queue emptied by [next]. *)
Inductive emits {U : unicode.Tables} : Reader -> list token -> Reader -> Prop :=
| emits_last (r r1 : Reader) :
    tokens r = [] -> step r = Ok r1 -> tokens r1 <> [] ->
    emits r (tokens r1) (set_tokens [] r1)
| emits_step (r r1 r' : Reader) (toks : list token) :
    tokens r = [] -> step r = Ok r1 ->
    emits (set_tokens [] r1) toks r' ->
    emits r (tokens r1 ++ toks) r'.

(** The bytes that [Read] stores for a run of rune tokens. *)
Definition token_bytes (toks : list token) : list byte :=
  flat_map (fun t => utf8.EncodeRune (val t)) toks.

(** The test of [lexIdentifier] for a rune of the identifier
    (reader.go:237). *)
Definition identifier_part {U : unicode.Tables} (b : rune) : bool :=
  unicode.In_L_Nl_Nd_Mn_Mc_Pc b
  || (b =? rn "$") || (b =? rn "_") || (b =? rn "\")
  || (b =? 8204) || (b =? 8205).

(** The runes with which [lex] opens a quoted key when [noident] is not
    set (reader.go:217). *)
Definition key_start {U : unicode.Tables} (b : rune) : bool :=
  negb (structural b) && negb (unicode.IsSpace b)
  && (unicode.IsLetter b || (b =? rn "$") || (b =? rn "_")
      || (b =? rn "\")).

(** A string body that [lexString] reads to its end: no raw line break,
    no raw closing quote [q], and a rune after every backslash. *)
Fixpoint closed_body (q : rune) (body : list rune) : bool :=
  match body with
  | [] => true
  | b :: rest =>
    if (b =? q) || (b =? newline) || (b =? 13) then false
    else if b =? rn "\" then
      match rest with
      | [] => false
      | _ :: rest' => closed_body q rest'
      end
    else closed_body q rest
  end.

(** The runes written for a string body: a backslash keeps the rune after
    it (a newline becomes [n]), a raw double quote gets a backslash. *)
Fixpoint string_out (body : list rune) : list rune :=
  match body with
  | [] => []
  | b :: rest =>
    if b =? rn "\" then
      match rest with
      | [] => [rn "\"]
      | next :: rest' =>
        rn "\" :: (if next =? newline then rn "n" else next)
           :: string_out rest'
      end
    else if b =? dquote then rn "\" :: dquote :: string_out rest
    else b :: string_out rest
  end.

(** A rune that [lex] passes on as it is when [noident] is set: none of
    the switch cases, no space, none of [$], [_], [\], no start of a
    number. *)
Definition passes_through {U : unicode.Tables} (b : rune) : bool :=
  negb (structural b) && negb (unicode.IsSpace b)
  && negb ((b =? rn "$") || (b =? rn "_") || (b =? rn "\"))
  && negb (starts_number b).

(** The decimal digits. *)
Definition is_digit (b : rune) : bool :=
  negb (strings.IndexRune "0123456789" b =? -1).

(** The bytes that [Read] stores for a token (reader.go:70-83). *)
Definition tok_bytes (t : token) : list byte :=
  match typ t with
  | tokenRune => utf8.EncodeRune (val t)
  | tokenNumber => num t
  | tokenError => []
  end.

Definition stream_bytes (toks : list token) : list byte :=
  flat_map tok_bytes toks.

(** A token that, if it is a rune token, holds a rune that UTF-8 writes
    as one byte. *)
Definition single_byte (t : token) : Prop :=
  typ t = tokenRune -> List.length (utf8.EncodeRune (val t)) = 1%nat.

(** [drains r toks e]: successive calls of [next] from [r] return the
    tokens [toks] and then the error token of [e]. *)
Inductive drains {U : unicode.Tables} : Reader -> list token -> error -> Prop :=
| drains_error (r r1 : Reader) (tok : token) (e : error) :
    next r = Ok (tok, r1) -> typ tok = tokenError -> err tok = Some e ->
    drains r [] e
| drains_token (r r1 : Reader) (tok : token) (toks : list token)
               (e : error) :
    next r = Ok (tok, r1) -> typ tok <> tokenError ->
    drains r1 toks e ->
    drains r (tok :: toks) e.

(** A measure that every step of a lexing state makes smaller, whether
    it queues tokens or not: twice [measure], plus one in [lexIdentifier]
    (whose hand-over to [lex] at the colon consumes nothing). *)
Definition step_measure (f : stateFunc) (r : Reader) : nat :=
  2 * measure f r
  + match f with St_lexIdentifier => 1 | _ => 0 end.

(** What a lexing state [f], called on [r], returns when it returns: a
    state and reader of smaller [step_measure]. *)
Definition step_smaller (f : stateFunc) (r : Reader)
           (res : result (stateFunc * Reader)) : Prop :=
  match res with
  | Ok (f', r') => (step_measure f' r' < step_measure f r)%nat
  | _ => True
  end.

(** [panics r]: successive calls of [next] from [r] return tokens that
    are not error tokens, and then one panics. *)
Inductive panics {U : unicode.Tables} : Reader -> Prop :=
| panics_now (r : Reader) (m : string) : next r = Panic m -> panics r
| panics_later (r r1 : Reader) (tok : token) :
    next r = Ok (tok, r1) -> typ tok <> tokenError -> panics r1 ->
    panics r.

(** * Properties *)

(** ** The positioned source *)

Lemma pop_cons (r : Reader) (b : rune) (rest : list rune) :
  pending (rd r) = b :: rest -> pop r = (advance b rest r, inl b).
Proof.
  intros H. unfold pop, ReadRune. rewrite H.
  unfold advance. destruct (b =? newline); reflexivity.
Qed.

Lemma pop_nil (r : Reader) :
  pending (rd r) = [] -> pop r = (exhausted r, inr (final (rd r))).
Proof. intros H. unfold pop, ReadRune. rewrite H. reflexivity. Qed.

(** Every [pop] is one of the two. *)
Lemma pop_cases (r : Reader) :
  (pending (rd r) = [] /\ pop r = (exhausted r, inr (final (rd r))))
  \/ (exists b rest, pending (rd r) = b :: rest
                     /\ pop r = (advance b rest r, inl b)).
Proof.
  destruct (pending (rd r)) as [|b rest] eqn:E.
  - left. split; [reflexivity | now apply pop_nil].
  - right. exists b, rest. split; [reflexivity | now apply pop_cons].
Qed.

(** A [push] right after a successful [pop] restores the source and the
    column; the line is not restored. *)
Lemma push_advance (r : Reader) (b : rune) (rest : list rune) :
  push (advance b rest r)
  = mkReader {| pending := b :: rest; last := None; final := final (rd r) |}
             (state r)
             (if b =? newline then int_succ (line r) else line r)
             (col r) (col r) (quote r) (comma r) (noident r)
             (remain r) (tokens r).
Proof. reflexivity. Qed.

(** ** What one step of a lexing state does to the queue *)

Lemma weight_le (f : stateFunc) (inp : list rune) : (weight f inp <= 3)%nat.
Proof.
  destruct f; simpl; try lia.
  destruct inp; [lia|]. destruct (starts_number r); lia.
Qed.

Lemma weight_lex_ge (inp : list rune) : (1 <= weight St_lex inp)%nat.
Proof.
  simpl. destruct inp; [lia|]. destruct (starts_number r); lia.
Qed.

Ltac case_pop :=
  match goal with
  | |- context [pop ?r] =>
    let H := fresh "Hpop" in
    let E := fresh "Hpend" in
    destruct (pop_cases r) as [[E H]|(? & ? & E & H)];
    rewrite H; clear H; simpl in E
  end.

(** Case analysis on the result of a state function: on the test of a
    conditional, on the outcome of a [pop], on the pending-comma flag. *)
Ltac split_result :=
  match goal with
  | |- _ (if ?c then _ else _) => destruct c eqn:?
  | |- _ (match pop ?r with pair _ _ => _ end) =>
    let H := fresh "Hpop" in
    let E := fresh "Hpend" in
    destruct (pop_cases r) as [[E H]|(? & ? & E & H)];
    rewrite H; clear H; simpl in E
  | |- context [if comma ?r then _ else _] => destruct (comma r) eqn:?
  | |- context [if negb (?a =? ?b) then _ else _] =>
    destruct (a =? b) eqn:?
  | |- _ (bind (if ?c then _ else _) _) => destruct c eqn:?
  end.

Ltac unfold_setters :=
  unfold maybeEmitComma, emit, send, Reader_err, exhausted, advance, push,
    set_rd, set_state, set_pos, set_quote, set_comma, set_noident,
    set_remain, set_tokens, tokens_cap in *.

Section StepProperties.

Context {U : unicode.Tables}.

Lemma weight_ge (f : stateFunc) (inp : list rune) :
  (forall e, f <> St_err e) -> (1 <= weight f inp)%nat.
Proof.
  intros H. destruct f; simpl; try lia.
  - destruct inp; [lia|]. destruct (starts_number r); lia.
  - now contradiction (H e).
Qed.

Lemma measure_consumed (f f' : stateFunc) (r r' : Reader) :
  (List.length (pending (rd r')) < List.length (pending (rd r)))%nat ->
  (forall e, f <> St_err e) ->
  (measure f' r' < measure f r)%nat.
Proof.
  intros Hlen Hf. unfold measure.
  pose proof (weight_le f' (pending (rd r'))).
  pose proof (weight_ge f (pending (rd r)) Hf). lia.
Qed.

Lemma measure_to_err (f : stateFunc) (e : error) (r r' : Reader) :
  (List.length (pending (rd r')) <= List.length (pending (rd r)))%nat ->
  (forall e, f <> St_err e) ->
  (measure (St_err e) r' < measure f r)%nat.
Proof.
  intros Hlen Hf. unfold measure.
  pose proof (weight_ge f (pending (rd r)) Hf). simpl. lia.
Qed.

Ltac post_tokens :=
  repeat (apply Forall_cons;
          [split; simpl; [discriminate | intros; discriminate]|]);
  apply Forall_nil.

Ltac post_err :=
  let e := fresh "e" in
  let He := fresh "He" in
  intros e He; try discriminate He; injection He as <-;
  eexists; reflexivity.

Ltac post_measure :=
  subst; unfold UnreadRune; simpl;
  first
    [ left; discriminate
    | right; apply measure_to_err;
      [ simpl; repeat match goal with
                      | H : pending (rd _) = _ |- _ => rewrite H
                      end; simpl; lia
      | discriminate ]
    | right; apply measure_consumed;
      [ simpl; repeat match goal with
                      | H : pending (rd _) = _ |- _ => rewrite H
                      end; simpl; lia
      | discriminate ] ].

Ltac solve_post :=
  unfold step_post; simpl;
  split; [simpl; lia|];
  split; [post_tokens|];
  split; [post_err|];
  split; [post_measure|];
  try reflexivity.

Lemma lex_spaces_post (r0 : Reader) :
  forall fuel b r,
    tokens r = [] ->
    (List.length (pending (rd r)) < fuel)%nat ->
    (List.length (pending (rd (if unicode.IsSpace b then r else push r)))
     < List.length (pending (rd r0)))%nat ->
    remain r = remain r0 ->
    step_post St_lex r0 (lex_spaces fuel b r).
Proof.
  induction fuel as [|fuel IH]; intros b r Hq Hfuel Hlen Hrem; [lia|].
  unfold lex_spaces; fold lex_spaces.
  destruct (unicode.IsSpace b) eqn:Hb.
  - case_pop.
    + unfold_setters. simpl. rewrite Hq.
      unfold step_post.
      split; [simpl; lia|].
      split; [constructor|].
      split; [post_err|].
      split; [|assumption].
      right. apply measure_to_err; [simpl; lia | discriminate].
    + apply IH.
      * simpl. assumption.
      * simpl. rewrite Hpend in Hfuel. simpl in Hfuel. lia.
      * rewrite Hpend in Hlen. simpl in Hlen.
        destruct (unicode.IsSpace x); simpl; lia.
      * simpl. assumption.
  - unfold step_post. unfold_setters. simpl. rewrite Hq.
    split; [simpl; lia|].
    split; [constructor|].
    split; [post_err|].
    split; [|assumption].
    right. apply measure_consumed; [|discriminate]. exact Hlen.
Qed.

Ltac crunch Hq :=
  repeat first
    [ progress (unfold_setters; simpl; rewrite ?Hq; simpl)
    | split_result ].

Lemma not_number_rune (b : rune) :
  not_in "0123456789eE.+-" b = true -> starts_number b = false.
Proof.
  intros H. unfold starts_number.
  destruct ((b >? rn "0") && (b <? rn "9")) eqn:E1.
  - apply andb_prop in E1. destruct E1 as [E1 E2].
    apply Z.gtb_lt in E1. apply Z.ltb_lt in E2.
    change (rn "0") with 48 in E1. change (rn "9") with 57 in E2.
    assert (Hb : b = 49 \/ b = 50 \/ b = 51 \/ b = 52 \/ b = 53
                 \/ b = 54 \/ b = 55 \/ b = 56) by lia.
    repeat (destruct Hb as [Hb|Hb]; [subst b; discriminate H|]).
    subst b; discriminate H.
  - simpl. destruct (b =? rn ".") eqn:E2.
    + apply Z.eqb_eq in E2. subst b. discriminate H.
    + simpl. destruct (b =? rn "+") eqn:E3; [|reflexivity].
      apply Z.eqb_eq in E3. subst b. discriminate H.
Qed.

Lemma lex_post (r : Reader) :
  tokens r = [] -> step_post St_lex r (lex r).
Proof.
  intros Hq. unfold lex.
  crunch Hq.
  all: try solve [solve_post].
  - apply lex_spaces_post; simpl; try reflexivity; try lia.
    match goal with H : unicode.IsSpace _ = true |- _ => rewrite H end.
    simpl. rewrite Hpend. simpl. lia.
  - split; [simpl; lia|].
    split; [constructor|].
    split; [post_err|].
    split; [|reflexivity].
    right. unfold measure, UnreadRune. simpl. rewrite Hpend.
    simpl. replace (starts_number x) with true; [lia|].
    symmetry. unfold starts_number.
    repeat match goal with
           | H : (_ =? _) = false |- _ => rewrite H; clear H
           end.
    assumption.
Qed.

Lemma lexIdentifier_post (r : Reader) :
  tokens r = [] -> step_post St_lexIdentifier r (lexIdentifier r).
Proof.
  intros Hq. unfold lexIdentifier.
  crunch Hq.
  all: solve_post.
Qed.

Lemma lexNumber_post (r : Reader) :
  tokens r = [] -> step_post St_lexNumber r (lexNumber r).
Proof.
  intros Hq. unfold lexNumber.
  crunch Hq.
  all: try solve [solve_post].
  split; [simpl; lia|].
  split; [constructor|].
  split; [post_err|].
  split; [|reflexivity].
  right. unfold measure, UnreadRune. simpl. rewrite Hpend. simpl.
  rewrite not_number_rune by assumption. lia.
Qed.

Lemma lexString_post (r : Reader) :
  tokens r = [] -> step_post St_lexString r (lexString r).
Proof.
  intros Hq. unfold lexString.
  crunch Hq.
  all: solve_post.
Qed.

Lemma FormatInt10_nonempty (v : Z) : strconv.FormatInt10 v <> [].
Proof.
  unfold strconv.FormatInt10.
  destruct (Z.to_int v) as [d|d]; simpl; [|discriminate].
  destruct d; simpl; discriminate.
Qed.

Lemma lexHex_parse_post (r0 r : Reader) (out : list byte) :
  tokens r = [] -> remain r = remain r0 ->
  step_post St_lexHex r0 (lexHex_parse out r).
Proof.
  intros Hq Hrem. unfold lexHex_parse.
  destruct (strconv.ParseInt16 out) as [v|e]; [|reflexivity].
  unfold_setters. simpl. rewrite Hq. simpl.
  split; [lia|].
  split.
  { apply Forall_cons; [|apply Forall_nil].
    split; simpl; [discriminate|]. intros _. apply FormatInt10_nonempty. }
  split; [post_err|].
  split; [left; discriminate | assumption].
Qed.

Lemma lexHex_loop_post (r0 : Reader) :
  forall fuel out r,
    tokens r = [] -> remain r = remain r0 ->
    (List.length (pending (rd r)) < fuel)%nat ->
    (List.length (pending (rd r)) <= List.length (pending (rd r0)))%nat ->
    step_post St_lexHex r0 (lexHex_loop fuel out r).
Proof.
  induction fuel as [|fuel IH]; intros out r Hq Hrem Hfuel Hlen; [lia|].
  simpl. 
  destruct (pop_cases r) as [[E H]|(b & rest & E & H)]; rewrite H; clear H.
  - unfold_setters. simpl. rewrite Hq.
    split; [simpl; lia|].
    split; [constructor|].
    split; [post_err|].
    split; [|assumption].
    right. apply measure_to_err; [simpl; lia | discriminate].
  - destruct (not_in "0123456789abcdefABCDEF" b).
    + apply lexHex_parse_post; simpl; assumption.
    + rewrite E in Hfuel, Hlen. simpl in Hfuel, Hlen.
      apply IH; simpl; try assumption; lia.
Qed.

Lemma lexHex_post (r : Reader) :
  tokens r = [] -> step_post St_lexHex r (lexHex r).
Proof.
  intros Hq. unfold lexHex. apply lexHex_loop_post; auto.
Qed.

Lemma lexLineComment_loop_post (r0 : Reader) :
  forall fuel r,
    tokens r = [] -> remain r = remain r0 ->
    (List.length (pending (rd r)) < fuel)%nat ->
    (List.length (pending (rd r)) <= List.length (pending (rd r0)))%nat ->
    step_post St_lexLineComment r0 (lexLineComment_loop fuel r).
Proof.
  induction fuel as [|fuel IH]; intros r Hq Hrem Hfuel Hlen; [lia|].
  simpl.
  destruct (pop_cases r) as [[E H]|(b & rest & E & H)]; rewrite H; clear H.
  - unfold_setters. simpl. rewrite Hq.
    split; [simpl; lia|].
    split; [constructor|].
    split; [post_err|].
    split; [|assumption].
    right. apply measure_to_err; [simpl; lia | discriminate].
  - rewrite E in Hfuel, Hlen. simpl in Hfuel, Hlen.
    destruct (b =? newline).
    + unfold_setters. simpl. rewrite Hq.
      split; [simpl; lia|].
      split; [constructor|].
      split; [post_err|].
      split; [|assumption].
      right. apply measure_consumed; [simpl; lia | discriminate].
    + apply IH; simpl; try assumption; lia.
Qed.

Lemma lexLineComment_post (r : Reader) :
  tokens r = [] -> step_post St_lexLineComment r (lexLineComment r).
Proof.
  intros Hq. unfold lexLineComment. apply lexLineComment_loop_post; auto.
Qed.

(** Every lexing state, run on an empty queue, returns (or panics, in
    [lexHex] only) with at most three tokens queued; when it queued
    none, the measure went down. *)
Lemma call_post (f : stateFunc) (r : Reader) :
  tokens r = [] -> (forall e, f <> St_err e) -> step_post f r (call f r).
Proof.
  intros Hq Hf. destruct f; simpl.
  - now apply lex_post.
  - now apply lexIdentifier_post.
  - now apply lexNumber_post.
  - now apply lexHex_post.
  - now apply lexString_post.
  - now apply lexLineComment_post.
  - now contradiction (Hf e).
Qed.

End StepProperties.

(** ** Driving the machine: [step], [next] and [Read] *)

Section Driving.

Context {U : unicode.Tables}.

Lemma step_sink (r : Reader) (e : error) :
  state r = St_err e -> tokens r = [] ->
  step r = Ok (set_tokens [error_token e] r).
Proof.
  intros Hs Hq. unfold step. rewrite Hs. simpl.
  unfold err_fn, send. rewrite Hq. simpl.
  destruct r; simpl in *. subst. reflexivity.
Qed.

(** A step of a lexing state, on an empty queue. *)
Lemma step_lexing (r : Reader) :
  tokens r = [] -> (forall e, state r <> St_err e) ->
  match step r with
  | Ok r' =>
    (List.length (tokens r') <= 3)%nat
    /\ Forall lexed_token (tokens r')
    /\ sink_wrapped r'
    /\ (tokens r' <> [] \/ (measure (state r') r' < measure (state r) r)%nat)
    /\ remain r' = remain r
  | Panic _ => state r = St_lexHex
  | Blocked | OutOfFuel => False
  end.
Proof.
  intros Hq Hs. pose proof (call_post (state r) r Hq Hs) as H.
  unfold step. destruct (call (state r) r) as [[f' r']| | |]; simpl in *;
    exact H.
Qed.

Lemma next_loop_queued (fuel : nat) (r : Reader) tok q :
  tokens r = tok :: q -> next_loop fuel r = Ok (tok, set_tokens q r).
Proof. intros H. destruct fuel; simpl; rewrite H; reflexivity. Qed.

Lemma measure_lt_next_fuel (r : Reader) :
  (measure (state r) r < next_fuel r)%nat.
Proof.
  unfold measure, next_fuel.
  pose proof (weight_le (state r) (pending (rd r))). lia.
Qed.

(** [next] returns once the measure is paid for: it never runs out of
    fuel and never blocks. *)
Lemma sink_or_lexing (f : stateFunc) :
  (exists e, f = St_err e) \/ (forall e, f <> St_err e).
Proof.
  destruct f; try (right; intros; discriminate). left. eexists. reflexivity.
Qed.

Lemma next_loop_total :
  forall fuel r,
    (measure (state r) r < fuel)%nat ->
    (exists res, next_loop fuel r = Ok res)
    \/ (exists m, next_loop fuel r = Panic m).
Proof.
  induction fuel as [|fuel IH]; intros r Hm; [lia|].
  simpl. destruct (tokens r) as [|tok q] eqn:Hq.
  2: { left. eexists. reflexivity. }
  destruct (sink_or_lexing (state r)) as [[e Hs]|Hne].
  - rewrite (step_sink r e Hs Hq). simpl. left. eexists.
    apply next_loop_queued. reflexivity.
  - pose proof (step_lexing r Hq Hne) as H.
    destruct (step r) as [r'| |m|]; simpl;
      [|contradiction|right; eexists; reflexivity|contradiction].
    destruct H as (_ & _ & _ & [Hne'|Hlt] & _).
    + destruct (tokens r') eqn:Hq'; [contradiction|].
      left. eexists. apply next_loop_queued. eassumption.
    + apply IH. lia.
Qed.

Lemma next_total (r : Reader) :
  (exists res, next r = Ok res) \/ (exists m, next r = Panic m).
Proof. apply next_loop_total, measure_lt_next_fuel. Qed.


(** What [next] returns: either the head of the queue, or, after
    stepping from an empty queue, a freshly lexed token or the error
    token of the sink the machine has reached. *)
Lemma next_loop_post :
  forall fuel r tok r',
    next_loop fuel r = Ok (tok, r') ->
    remain r' = remain r
    /\ ((tokens r = tok :: tokens r' /\ r' = set_tokens (tokens r') r)
        \/ (tokens r = []
            /\ Forall lexed_token (tokens r')
            /\ (sink_wrapped r -> sink_wrapped r')
            /\ (lexed_token tok
                \/ exists e, tok = error_token e /\ state r' = St_err e
                             /\ tokens r' = []))).
Proof.
  induction fuel as [|fuel IH]; intros r tok r' H.
  - simpl in H. destruct (tokens r) as [|t q] eqn:Hq; [discriminate|].
    injection H as <- <-. split; [reflexivity|]. left. split; reflexivity.
  - simpl in H. destruct (tokens r) as [|t q] eqn:Hq.
    2: { injection H as <- <-. split; [reflexivity|].
         left. split; reflexivity. }
    destruct (sink_or_lexing (state r)) as [[e Hs]|Hne].
    + rewrite (step_sink r e Hs Hq) in H. simpl in H.
      rewrite (next_loop_queued fuel _ (error_token e) []) in H
        by reflexivity.
      injection H as <- <-. split; [reflexivity|]. right.
      split; [reflexivity|]. split; [constructor|].
      split; [intros Hw; exact Hw|].
      right. exists e. repeat split; assumption.
    + pose proof (step_lexing r Hq Hne) as Hstep.
      destruct (step r) as [r1| |m|]; simpl in H; try discriminate H.
      destruct Hstep as (_ & Hlexed & Hsink & _ & Hrem).
      destruct (IH r1 tok r' H) as (Hrem' & [[Hq1 Hr']|Hfresh]).
      * split; [congruence|]. right. split; [reflexivity|].
        rewrite Hq1 in Hlexed. inversion Hlexed; subst.
        split; [assumption|].
        split; [intros _; rewrite Hr'; exact Hsink | left; assumption].
      * destruct Hfresh as (_ & Hl & Hw & Ht).
        split; [congruence|]. right. split; [reflexivity|].
        split; [assumption|].
        split; [intros _; apply Hw, Hsink | exact Ht].
Qed.

Lemma EncodeRune_nonempty (v : rune) :
  (1 <= List.length (utf8.EncodeRune v))%nat.
Proof.
  unfold utf8.EncodeRune.
  repeat match goal with
         | |- context [if ?c then _ else _] => destruct c
         end; simpl; lia.
Qed.

Lemma EncodeRune_length (v : rune) :
  (List.length (utf8.EncodeRune v) <= utf8.UTFMax)%nat.
Proof.
  unfold utf8.EncodeRune, utf8.UTFMax.
  repeat match goal with
         | |- context [if ?c then _ else _] => destruct c
         end; simpl; lia.
Qed.


Lemma Inv_set_remain (r : Reader) (bs : list byte) :
  Inv r -> Inv (set_remain bs r).
Proof. intros H. exact H. Qed.

Lemma Inv_set_tokens (r : Reader) (q : list token) :
  Inv r -> Forall lexed_token q -> Inv (set_tokens q r).
Proof. intros [_ H] Hq. split; [exact Hq | exact H]. Qed.

(** [next] keeps the invariant, and an error token means the machine
    sits in the sink of that error with an empty queue. *)
Lemma next_inv (r : Reader) (tok : token) (r' : Reader) :
  Inv r -> next r = Ok (tok, r') ->
  Inv r' /\ remain r' = remain r
  /\ (lexed_token tok
      \/ exists e, tok = error_token e /\ state r' = St_err e
                   /\ tokens r' = []).
Proof.
  intros [Hlexed Hsink] H.
  destruct (next_loop_post _ _ _ _ H) as (Hrem & [[Hq Hr']|Hfresh]).
  - pose proof Hlexed as Hl. rewrite Hq in Hl.
    apply Forall_cons_iff in Hl. destruct Hl as [Htok Hrest].
    split; [|split; [assumption | left; assumption]].
    rewrite Hr'. apply Inv_set_tokens; [split|]; assumption.
  - destruct Hfresh as (_ & Hl & Hw & Ht).
    split; [split; [assumption | apply Hw, Hsink]|].
    split; assumption.
Qed.

(** The loop of [Read] keeps the invariant; when it returns an error the
    machine is in that error's sink, with nothing queued or carried. *)
Lemma Read_loop_inv (C : nat) :
  forall fuel buf i r res,
    Inv r -> (remain r = [] \/ (C <= i)%nat) ->
    Read_loop fuel C buf i r = Ok res ->
    Inv (reader res)
    /\ forall e, rerr res = Some e ->
                 state (reader res) = St_err e
                 /\ tokens (reader res) = [] /\ remain (reader res) = [].
Proof.
  induction fuel as [|fuel IH]; intros buf i r res HI Hrem H; simpl in H.
  - destruct (Nat.ltb_spec i C); [discriminate|].
    injection H as <-. simpl. split; [assumption | discriminate].
  - destruct (Nat.ltb_spec i C) as [Hlt|Hge].
    2: { injection H as <-. simpl. split; [assumption | discriminate]. }
    destruct Hrem as [Hrem|Hrem]; [|lia].
    destruct (next r) as [[tok r1]| | |] eqn:Hn; simpl in H;
      try discriminate H.
    destruct (next_inv _ _ _ HI Hn) as (HI1 & Hrem1 & Htok).
    rewrite Hrem in Hrem1.
    destruct (typ tok) eqn:Hty.
    + injection H as <-. simpl. split; [assumption|].
      intros e He.
      destruct Htok as [[Hne _]|(e' & -> & Hs & Hq)]; [contradiction|].
      simpl in He. injection He as <-. repeat split; assumption.
    + apply IH in H; [assumption| |].
      * destruct (Nat.ltb_spec
                    (Nat.min (C - i) (List.length (utf8.EncodeRune (val tok))))
                    (List.length (utf8.EncodeRune (val tok))));
          [apply Inv_set_remain|]; assumption.
      * destruct (Nat.ltb_spec
                    (Nat.min (C - i) (List.length (utf8.EncodeRune (val tok))))
                    (List.length (utf8.EncodeRune (val tok))));
          [right; lia | left; assumption].
    + apply IH in H; [assumption| |].
      * destruct (Nat.ltb_spec
                    (Nat.min (C - i) (List.length (num tok)))
                    (List.length (num tok)));
          [apply Inv_set_remain|]; assumption.
      * destruct (Nat.ltb_spec
                    (Nat.min (C - i) (List.length (num tok)))
                    (List.length (num tok)));
          [right; lia | left; assumption].
Qed.

Lemma Read_inv (r : Reader) (C : nat) (res : ReadResult) :
  Inv r -> Read r C = Ok res ->
  Inv (reader res)
  /\ forall e, rerr res = Some e ->
               state (reader res) = St_err e
               /\ tokens (reader res) = [] /\ remain (reader res) = [].
Proof.
  intros HI H. unfold Read in H.
  eapply Read_loop_inv; [| |exact H].
  - apply Inv_set_remain, HI.
  - left. reflexivity.
Qed.


(** [Read] is total: it returns, or panics in [lexHex]; its loops never
    run out of fuel and no send ever blocks. *)
Lemma Read_loop_total (C : nat) :
  forall fuel buf i r,
    ((C - i + List.length (tokens r) <= fuel)%nat
     \/ (Forall lexed_token (tokens r) /\ (C - i <= fuel)%nat)) ->
    (exists res, Read_loop fuel C buf i r = Ok res)
    \/ (exists m, Read_loop fuel C buf i r = Panic m).
Proof.
  induction fuel as [|fuel IH]; intros buf i r Hf; simpl.
  - destruct (Nat.ltb_spec i C); [lia|]. left. eexists. reflexivity.
  - destruct (Nat.ltb_spec i C) as [Hlt|Hge];
      [|left; eexists; reflexivity].
    destruct (next_total r) as [[[tok r1] Hn]|[m Hn]]; rewrite Hn; simpl;
      [|right; eexists; reflexivity].
    destruct (next_loop_post _ _ _ _ Hn) as (_ & Hcase).
    destruct (typ tok) eqn:Hty; [left; eexists; reflexivity| |].
    + pose proof (EncodeRune_nonempty (val tok)) as Hl.
      apply IH.
      destruct (Nat.min (C - i) (List.length (utf8.EncodeRune (val tok)))
                <? List.length (utf8.EncodeRune (val tok)))%nat; simpl.
      all: destruct Hcase as [[Hq _]|(Hq & Hlex & _)];
        [rewrite Hq in Hf; simpl in Hf;
         destruct Hf as [Hf|[Hf1 Hf2]];
         [left; lia | right; inversion Hf1; subst; split; [assumption|lia]]
        | right; split; [assumption|];
          rewrite Hq in Hf; simpl in Hf; lia].
    + assert (Hprog : lexed_token tok ->
                      (1 <= Nat.min (C - i) (List.length (num tok)))%nat).
      { intros [_ Hnum]. specialize (Hnum Hty).
        destruct (num tok); [contradiction|simpl; lia]. }
      apply IH.
      destruct (Nat.min (C - i) (List.length (num tok))
                <? List.length (num tok))%nat; simpl.
      all: destruct Hcase as [[Hq _]|(Hq & Hlex & _ & Ht)];
        [rewrite Hq in Hf; simpl in Hf;
         destruct Hf as [Hf|[Hf1 Hf2]];
         [left; lia
         | right; inversion Hf1; subst; split;
           [assumption | specialize (Hprog H1); lia]]
        | right; split; [assumption|];
          destruct Ht as [Ht|(e & -> & _)]; [|discriminate Hty];
          specialize (Hprog Ht); rewrite Hq in Hf; simpl in Hf; lia].
Qed.

Lemma Read_total (r : Reader) (C : nat) :
  (exists res, Read r C = Ok res) \/ (exists m, Read r C = Panic m).
Proof.
  unfold Read. apply Read_loop_total. left. simpl. lia.
Qed.

(** The bytes stored never exceed the buffer, whatever count is returned;
    the count exceeds the buffer length by at most three. *)
Lemma Read_loop_written (C : nat) :
  forall fuel buf i r res,
    List.length buf = Nat.min i C -> (i <= C + 3)%nat ->
    Read_loop fuel C buf i r = Ok res ->
    List.length (written res) = Nat.min (n res) C /\ (n res <= C + 3)%nat.
Proof.
  induction fuel as [|fuel IH]; intros buf i r res Hbuf Hi H; simpl in H.
  - destruct (Nat.ltb_spec i C); [discriminate|].
    injection H as <-. simpl. split; assumption.
  - destruct (Nat.ltb_spec i C) as [Hlt|Hge].
    2: { injection H as <-. simpl. split; assumption. }
    destruct (next r) as [[tok r1]| | |]; simpl in H; try discriminate H.
    destruct (typ tok).
    + injection H as <-. simpl. split; assumption.
    + pose proof (EncodeRune_length (val tok)) as Hl.
      unfold utf8.UTFMax in Hl.
      apply IH in H; [assumption| |lia].
      rewrite length_app, length_firstn. lia.
    + apply IH in H; [assumption| |lia].
      rewrite length_app, length_firstn. lia.
Qed.

Lemma Read_stores_within_buffer (r : Reader) (C : nat) (res : ReadResult) :
  Read r C = Ok res ->
  (List.length (written res) <= C)%nat /\ (n res <= C + 3)%nat.
Proof.
  intros H. unfold Read in H.
  apply Read_loop_written in H.
  - lia.
  - rewrite length_firstn. lia.
  - lia.
Qed.

End Driving.

(** * The claims of the specification *)

Lemma reachable_Inv {U : unicode.Tables} (r : Reader) : reachable r -> Inv r.
Proof.
  induction 1 as [src|r C res _ IH H].
  - split; [constructor|]. intros e He. discriminate He.
  - apply (Read_inv r C res IH H).
Qed.

(** A rune without a case of its own fails every test of the switch. *)
Ltac rewrite_tests :=
  repeat match goal with
         | H : (_ =? _) = false |- _ => rewrite !H; clear H
         end.

Ltac not_structural H :=
  unfold structural in H;
  repeat (apply orb_false_elim in H;
          let H' := fresh "Hne" in destruct H as [H H']).

(** ** Pending commas (C8) *)

Section Commas.

Context {U : unicode.Tables}.

(** The whitespace loop emits nothing and leaves the flags alone. *)
Lemma lex_spaces_frame :
  forall fuel b r,
    (List.length (pending (rd r)) < fuel)%nat ->
    exists f r',
      lex_spaces fuel b r = Ok (f, r')
      /\ tokens r' = tokens r /\ comma r' = comma r
      /\ noident r' = noident r.
Proof.
  induction fuel as [|fuel IH]; intros b r Hfuel; [lia|].
  unfold lex_spaces; fold lex_spaces.
  destruct (unicode.IsSpace b).
  - destruct (pop_cases r) as [[E H]|(b' & rest & E & H)]; rewrite H.
    + do 2 eexists. split; [reflexivity|]. repeat split.
    + rewrite E in Hfuel. simpl in Hfuel.
      destruct (IH b' (advance b' rest r)) as (f & r' & Hl & H1 & H2 & H3);
        [simpl; lia|].
      exists f, r'. split; [exact Hl|]. repeat split; assumption.
  - do 2 eexists. split; [reflexivity|]. repeat split.
Qed.

Lemma lex_materialises_comma (r : Reader) (b : rune) (rest : list rune) :
  tokens r = [] -> pending (rd r) = b :: rest ->
  comma r = true -> starts_content b = true ->
  comma_first (lex r).
Proof.
  intros Hq Hpend Hcomma Hb. unfold lex.
  rewrite (pop_cons r b rest Hpend).
  unfold starts_content in Hb.
  repeat (apply orb_prop in Hb; destruct Hb as [Hb|Hb]).
  1-6: apply Z.eqb_eq in Hb; subst b; simpl.
  7: (apply andb_prop in Hb; destruct Hb as [Hs Hsp];
      apply negb_true_iff in Hs, Hsp; not_structural Hs;
      rewrite_tests; rewrite Hsp; simpl).
  all: repeat first
         [ progress (unfold_setters; simpl; rewrite ?Hq, ?Hcomma; simpl)
         | split_result ].
  all: do 3 eexists; split; [reflexivity | split; reflexivity].
Qed.

Lemma lex_spaces_no_comma (fuel : nat) (b : rune) (r : Reader) :
  tokens r = [] -> (List.length (pending (rd r)) < fuel)%nat ->
  no_comma (lex_spaces fuel b r).
Proof.
  intros Hq Hfuel.
  destruct (lex_spaces_frame fuel b r Hfuel) as (f & r' & H & Ht & _).
  exists f, r'. split; [exact H|]. rewrite Ht, Hq. constructor.
Qed.

Lemma lex_without_pending_comma (r : Reader) (b : rune) (rest : list rune) :
  tokens r = [] -> pending (rd r) = b :: rest -> comma r = false ->
  no_comma (lex r).
Proof.
  intros Hq Hpend Hcomma. unfold lex.
  rewrite (pop_cons r b rest Hpend).
  repeat first
    [ progress (unfold_setters; simpl; rewrite ?Hq, ?Hcomma; simpl)
    | match goal with
      | |- _ (lex_spaces _ _ _) =>
        apply lex_spaces_no_comma; [reflexivity | simpl; lia]
      end
    | split_result ].
  all: do 2 eexists; (split; [reflexivity|]); simpl.
  all: repeat (apply Forall_cons;
               [simpl; first [ apply Z.eqb_neq; assumption
                             | intros HH; vm_compute in HH;
                               discriminate HH ]|]).
  all: apply Forall_nil.
Qed.

Lemma lex_skips (r : Reader) (b : rune) (rest : list rune) :
  tokens r = [] -> pending (rd r) = b :: rest ->
  b = rn "+" \/ b = rn "/"
  \/ (structural b = false /\ unicode.IsSpace b = true) ->
  kept_pending r (lex r).
Proof.
  intros Hq Hpend Hb. unfold lex.
  rewrite (pop_cons r b rest Hpend).
  destruct Hb as [->|[->|[Hs Hsp]]].
  3: (not_structural Hs; rewrite_tests; rewrite Hsp).
  all: simpl.
  - do 2 eexists. repeat split; assumption.
  - repeat split_result.
    all: do 2 eexists; repeat split; assumption.
  - destruct (lex_spaces_frame (S (List.length rest)) b (advance b rest r))
      as (f & r' & H & Ht & Hc & _); [simpl; lia|].
    exists f, r'. split; [exact H|]. split; [rewrite Ht; exact Hq|].
    exact Hc.
Qed.

End Commas.

(** C8. Trailing commas are elided.  In [lex], on an empty queue and with
    [b] the next rune: a [,] emits nothing and sets the pending-comma flag;
    a [}] or [\]] emits only itself and clears the flag, so that a pending
    comma is dropped; with a comma pending, a rune that starts content
    makes the comma the first token queued and clears the flag, while
    skipped input ([+], a lone [/] or a comment start, spaces) queues
    nothing and keeps it pending, and a colon is passed on without
    touching the flag; with no comma pending no comma is queued.  Hence
    [[1,2,]] is translated to [[1,2]] and [{"a":1,}] to
    [{"a":1}]. *)
Theorem trailing_commas_elided {U : unicode.Tables}
        (r : Reader) (b : rune) (rest : list rune) :
  tokens r = [] -> pending (rd r) = b :: rest ->
  (b = rn "," ->
   lex r = Ok (St_lex, set_noident false (set_comma true (advance b rest r))))
  /\ (b = rn "}" \/ b = rn "]" ->
      lex r = Ok (St_lex,
                  set_tokens [rune_token b]
                    (set_noident false (set_comma false (advance b rest r)))))
  /\ (comma r = true -> starts_content b = true -> comma_first (lex r))
  /\ (b = rn "+" \/ b = rn "/"
      \/ (structural b = false /\ unicode.IsSpace b = true) ->
      kept_pending r (lex r))
  /\ (b = rn ":" ->
      lex r = Ok (St_lex,
                  set_tokens [rune_token b]
                    (set_noident true (advance b rest r))))
  /\ (comma r = false -> no_comma (lex r))
  /\ translate 16 (runes "[1,2,]") = Ok (runes "[1,2]", Some io_EOF)
  /\ translate 1 (runes "[1,2,]") = Ok (runes "[1,2]", Some io_EOF)
  /\ translate 16 (runes "{" ++ dquote :: runes "a" ++ dquote :: runes ":1,}")
     = Ok (runes "{" ++ dquote :: runes "a" ++ dquote :: runes ":1}",
           Some io_EOF).
Proof.
  intros Hq Hpend.
  split.
  { intros ->. unfold lex. rewrite (pop_cons r _ rest Hpend). reflexivity. }
  split.
  { intros [-> | ->]; unfold lex; rewrite (pop_cons r _ rest Hpend); simpl;
      unfold emit, send; simpl; rewrite Hq; reflexivity. }
  split; [intros Hc Hb; now apply (lex_materialises_comma r b rest)|].
  split; [intros Hb; now apply (lex_skips r b rest)|].
  split.
  { intros ->. unfold lex. rewrite (pop_cons r _ rest Hpend). simpl.
    unfold emit, send. simpl. rewrite Hq. reflexivity. }
  split; [intros Hc; now apply (lex_without_pending_comma r b rest)|].
  repeat split; vm_compute; reflexivity.
Qed.

Lemma trailing_commas_elided_witness :
  let r := set_comma true (NewReader (source (runes "]"))) in
  tokens r = [] /\ pending (rd r) = [rn "]"]
  /\ lex (U := unicode.Latin1) r
     = Ok (St_lex,
           set_tokens [rune_token (rn "]")]
             (set_noident false (set_comma false (advance (rn "]") [] r)))).
Proof.
  intros r. split; [reflexivity|]. split; [reflexivity|].
  apply (trailing_commas_elided (U := unicode.Latin1) r (rn "]") []
                                eq_refl eq_refl).
  right. reflexivity.
Defined.

(** ** The token queue never blocks (C9) *)

(** C9. Every step of a state function, started on the empty queue as
    [next] does, returns with at most three tokens queued, the capacity
    of the channel (the only other outcome is the panic of [lexHex]): no
    send blocks.  Three is reached by a bare key after a comma: the pending
    comma, the opening quote, the first rune of the key.  So no [Read]
    call deadlocks. *)
Theorem step_never_blocks {U : unicode.Tables} (r : Reader) :
  tokens r = [] ->
  match step r with
  | Ok r' => (List.length (tokens r') <= tokens_cap)%nat
  | Panic _ => state r = St_lexHex
  | Blocked | OutOfFuel => False
  end
  /\ (forall b rest,
         state r = St_lex -> pending (rd r) = b :: rest ->
         comma r = true -> noident r = false ->
         structural b = false -> unicode.IsSpace b = false ->
         unicode.IsLetter b = true ->
         exists r', step r = Ok r'
                    /\ state r' = St_lexIdentifier
                    /\ tokens r' = [rune_token (rn ","); rune_token dquote;
                                    rune_token b])
  /\ (forall r0 C, Read r0 C <> Blocked).
Proof.
  intros Hq. split; [|split].
  - destruct (sink_or_lexing (state r)) as [[e Hs]|Hne].
    + rewrite (step_sink r e Hs Hq). simpl. unfold tokens_cap. lia.
    + pose proof (step_lexing r Hq Hne) as H.
      destruct (step r); try exact H. destruct H as [H _]. exact H.
  - intros b rest Hs Hpend Hc Hn Hstr Hsp Hl.
    unfold step. rewrite Hs. simpl. unfold lex.
    rewrite (pop_cons r b rest Hpend).
    not_structural Hstr. rewrite_tests. rewrite Hsp.
    unfold_setters. simpl. rewrite Hq, Hc. simpl. rewrite Hn, Hl. simpl.
    eexists. split; [reflexivity|]. split; reflexivity.
  - intros r0 C H.
    destruct (Read_total r0 C) as [[res H']|[m H']]; congruence.
Qed.

Lemma step_never_blocks_witness :
  let r := set_comma true (NewReader (source (runes "a:1"))) in
  tokens r = []
  /\ exists r', step (U := unicode.Latin1) r = Ok r'
                /\ state r' = St_lexIdentifier
                /\ tokens r' = [rune_token (rn ","); rune_token dquote;
                                rune_token (rn "a")].
Proof.
  intros r. split; [reflexivity|].
  apply (proj1 (proj2 (step_never_blocks (U := unicode.Latin1) r eq_refl))
               (rn "a") (runes ":1")); reflexivity.
Defined.

(** ** End of stream after a lone [0] (C10) *)

Lemma Read_error_first {U : unicode.Tables}
      (r r1 : Reader) (e : error) (C : nat) :
  remain r = [] -> tokens r = [] -> (0 < C)%nat ->
  next r = Ok (error_token e, r1) ->
  Read r C = Ok {| reader := r1; written := []; n := 0; rerr := Some e |}.
Proof.
  intros Hrem Hq HC Hn. unfold Read. rewrite Hrem, Hq. simpl.
  rewrite Nat.min_0_r, Nat.add_0_r. simpl.
  assert (Hr : set_remain [] r = r)
    by (destruct r; simpl in *; subst; reflexivity).
  rewrite Hr. destruct C as [|C]; [lia|]. simpl. rewrite Hn. reflexivity.
Qed.

(** C10. When the source ends right after a [0] read in [lex], the [0]
    is not emitted: the step queues at most the pending comma and enters
    the error sink.  For the document [0] every [Read] with a non-empty
    buffer stores nothing and returns [io.EOF], and so the translation is
    empty. *)
Theorem lone_zero_is_swallowed {U : unicode.Tables} (r : Reader) (C : nat) :
  tokens r = [] -> pending (rd r) = [rn "0"] -> (0 < C)%nat ->
  (exists r',
      lex r = Ok (Reader_err r' (final (rd r)), r')
      /\ tokens r' = (if comma r then [rune_token (rn ",")] else [])
      /\ pending (rd r') = [])
  /\ (exists r',
         Read (NewReader (source (runes "0"))) C
         = Ok {| reader := r'; written := []; n := 0; rerr := Some io_EOF |}
         /\ state r' = St_err io_EOF)
  /\ translate C (runes "0") = Ok ([], Some io_EOF).
Proof.
  intros Hq Hpend HC. split; [|split].
  - unfold lex. rewrite (pop_cons r _ [] Hpend). simpl.
    unfold_setters. simpl. rewrite Hq.
    destruct (comma r); simpl; eexists; repeat split; reflexivity.
  - eexists. split.
    + apply Read_error_first;
        [reflexivity | reflexivity | exact HC | vm_compute; reflexivity].
    + reflexivity.
  - unfold translate. simpl ReadAll.
    erewrite Read_error_first;
      [reflexivity | reflexivity | reflexivity | exact HC
       | vm_compute; reflexivity].
Qed.

Lemma lone_zero_is_swallowed_witness :
  let r := NewReader (source (runes "0")) in
  tokens r = [] /\ pending (rd r) = [rn "0"] /\ (0 < 8)%nat
  /\ translate 8 (runes "0") = Ok ([], Some io_EOF).
Proof.
  intros r. split; [reflexivity|]. split; [reflexivity|]. split; [lia|].
  apply (lone_zero_is_swallowed (U := unicode.Latin1) r 8 eq_refl eq_refl).
  lia.
Defined.

(** ** The position reported for a raw newline in a string (C5) *)

Lemma int_succ_no_wrap (x : Z) :
  - 2 ^ 63 <= x < 2 ^ 63 - 1 -> int_succ x = x + 1.
Proof.
  intros H. unfold int_succ, int_wrap.
  rewrite Z.mod_small; lia.
Qed.

(** C5, as the specification states it, fails: the string below has its raw
    newline at line 3, column 5, and the fault reports line 4, column 0. *)
Lemma newline_fault_position_counterexample :
  let pre := [newline; newline] ++ runes "   " ++ dquote :: runes "a" in
  let fault := LexingError 4 0 (errors_New "unexpected newline") in
  src_pos pre = (3, 5)
  /\ translate 16 (pre ++ [newline]) = Ok (dquote :: runes "a", Some fault)
  /\ fault <> LexingError 3 5 (errors_New "unexpected newline").
Proof.
  intros pre fault. split; [reflexivity|]. split; [vm_compute; reflexivity|].
  discriminate.
Qed.

(** C5, amended.  When [lexString] reads a raw line break while the reader
    is at line [L], column [K], the fault carries the reader's position
    after that rune: line [L+1], column 0 for a line feed, and line [L],
    column [K+1] for a carriage return (in Go's [int] arithmetic). *)
Theorem lexString_newline_fault_position
        (r : Reader) (b : rune) (rest : list rune) :
  pending (rd r) = b :: rest ->
  quote r = dquote \/ quote r = rn "'" ->
  (b = newline ->
   exists r',
     lexString r
     = Ok (St_err (LexingError (int_succ (line r)) 0
                               (errors_New "unexpected newline")), r')
     /\ tokens r' = tokens r)
  /\ (b = 13 ->
      exists r',
        lexString r
        = Ok (St_err (LexingError (line r) (int_succ (col r))
                                  (errors_New "unexpected newline")), r')
        /\ tokens r' = tokens r).
Proof.
  intros Hpend Hquote. split; intros ->; unfold lexString;
    rewrite (pop_cons r _ rest Hpend); simpl;
    destruct Hquote as [-> | ->]; simpl;
    eexists; split; reflexivity.
Qed.

Lemma lexString_newline_fault_position_witness :
  let r := set_pos 3 5 4 (set_quote dquote (NewReader (source [newline]))) in
  pending (rd r) = [newline] /\ quote r = dquote
  /\ exists r',
      lexString r
      = Ok (St_err (LexingError (int_succ 3) 0
                                (errors_New "unexpected newline")), r')
      /\ tokens r' = tokens r.
Proof.
  intros r. split; [reflexivity|]. split; [reflexivity|].
  apply (lexString_newline_fault_position
           r newline [] eq_refl (or_introl eq_refl)).
  reflexivity.
Defined.

(** ** Sticky faults (C7) *)





















(** ** Where the code departs from the specification *)

(** C1. [Read] adds the full encoded length of a rune to its count even
    when only a prefix of the encoding fitted ([i += l], reader.go:77;
    the number branch adds [copied], reader.go:83).  On the document
    of a quoted U+00E9 and a buffer of length 2 the first call stores 2
    bytes, carries 1 over, and returns 3. *)
Theorem Read_count_exceeds_buffer :
  exists res,
    Read (U := unicode.Latin1) (NewReader (source [dquote; 233; dquote])) 2
    = Ok res
    /\ n res = 3%nat /\ written res = [34; 195]
    /\ remain (reader res) = [169] /\ rerr res = None.
Proof.
  eexists. split; [vm_compute; reflexivity|]. repeat split.
Qed.

(** C2. In [lexNumber] a [.] followed by a digit emits nothing, and the
    digit is consumed with it (reader.go:256-267): [1.5] is translated
    to [1].  A [.] that no digit follows is emitted as [.0]. *)
Theorem number_fraction_is_dropped :
  translate 16 (runes "1.5") = Ok (runes "1", Some io_EOF)
  /\ (let r := set_state St_lexNumber (NewReader (source (runes ".5,"))) in
      exists r',
        lexNumber r = Ok (St_lexNumber, r')
        /\ tokens r' = [] /\ pending (rd r') = runes ",")
  /\ translate 16 (runes "1.,") = Ok (runes "1.0", Some io_EOF).
Proof.
  split; [vm_compute; reflexivity|].
  split; [|vm_compute; reflexivity].
  eexists. split; [vm_compute; reflexivity|]. split; reflexivity.
Qed.

(** C3. [lexHex] parses whatever the digit loop gathered, which may be
    nothing ([0x] followed by a rune that is no hex digit) or a value that
    does not fit in 64 bits: [strconv.ParseInt] fails and the reader
    panics (reader.go:299-302). *)
Theorem lexHex_panics :
  translate 16 (runes "0x,")
  = Panic "programming error: we lexed a non-hexadecimal number"
  /\ translate 16 (runes "0x8000000000000000,")
     = Panic "programming error: we lexed a non-hexadecimal number"
  /\ strconv.ParseInt16 [] = inr strconv.ErrSyntax
  /\ strconv.ParseInt16 (runes "8000000000000000") = inr strconv.ErrRange.
Proof. repeat split; vm_compute; reflexivity. Qed.

(** C4. The digit test of [lex] is [b > '0' && b < '9'] (reader.go:222):
    a [9] is emitted by [lex] itself, which stays in [lex], so that [9.] is
    translated to [90.] where [8.] gives [8.0]. *)
Theorem nine_stays_in_lex :
  (exists r',
      step (U := unicode.Latin1) (NewReader (source (runes "9.,"))) = Ok r'
      /\ state r' = St_lex /\ tokens r' = [rune_token (rn "9")])
  /\ (exists r',
         step (U := unicode.Latin1) (NewReader (source (runes "8.,"))) = Ok r'
         /\ state r' = St_lexNumber /\ tokens r' = []
         /\ pending (rd r') = runes "8.,")
  /\ translate 16 (runes "9.,") = Ok (runes "90.", Some io_EOF)
  /\ translate 16 (runes "8.,") = Ok (runes "8.0", Some io_EOF).
Proof.
  split; [eexists; split; [vm_compute; reflexivity | split; reflexivity]|].
  split; [eexists; split; [vm_compute; reflexivity | repeat split]|].
  split; vm_compute; reflexivity.
Qed.

(** C6. In the test of reader.go:217 the flag [noident] guards the letters
    only ([&&] binds tighter than [||]): after a colon a word that begins
    with [$], [_] or [\] still opens a quoted identifier, and [lexIdentifier]
    then faults on the first rune that is not a colon. *)
Theorem dollar_after_colon_is_quoted :
  (let r := set_noident true (NewReader (source (runes "$x}"))) in
   exists r',
     step (U := unicode.Latin1) r = Ok r'
     /\ state r' = St_lexIdentifier
     /\ tokens r' = [rune_token dquote; rune_token (rn "$")])
  /\ translate 16 (runes "{a:$x}")
     = Ok (runes "{" ++ dquote :: runes "a" ++ dquote :: runes ":"
                 ++ dquote :: runes "$x",
           Some (LexingError 1 6 (UnexpectedCharacter (rn "}"))))
  /\ translate 16 (runes "{a:true}")
     = Ok (runes "{" ++ dquote :: runes "a" ++ dquote :: runes ":true}",
           Some io_EOF).
Proof.
  split; [eexists; split; [vm_compute; reflexivity | split; reflexivity]|].
  split; vm_compute; reflexivity.
Qed.

(** * Further properties of the reader *)

(** ** What a [Read] call returns *)

Lemma Read_loop_bounds {U : unicode.Tables} (C : nat) :
  forall fuel buf i r res,
    List.length buf = Nat.min i C -> (i <= C + 3)%nat ->
    (i <= List.length buf + List.length (remain r))%nat ->
    Read_loop fuel C buf i r = Ok res ->
    List.length (written res) = Nat.min (n res) C
    /\ (n res <= C + 3)%nat
    /\ (n res <= List.length (written res)
                 + List.length (remain (reader res)))%nat.
Proof.
  induction fuel as [|fuel IH]; intros buf i r res Hbuf Hi Hrem H;
    simpl in H.
  - destruct (Nat.ltb_spec i C); [discriminate|].
    injection H as <-. simpl. repeat split; assumption.
  - destruct (Nat.ltb_spec i C) as [Hlt|Hge].
    2: { injection H as <-. simpl. repeat split; assumption. }
    destruct (next r) as [[tok r1]| | |]; simpl in H; try discriminate H.
    destruct (typ tok).
    + injection H as <-. simpl. repeat split; try assumption; lia.
    + pose proof (EncodeRune_length (val tok)) as Hl.
      unfold utf8.UTFMax in Hl.
      apply IH in H; [assumption| |lia|].
      * rewrite length_app, length_firstn. lia.
      * rewrite length_app, length_firstn.
        destruct (Nat.ltb_spec
                    (Nat.min (C - i) (List.length (utf8.EncodeRune (val tok))))
                    (List.length (utf8.EncodeRune (val tok)))).
        -- simpl. rewrite length_skipn. lia.
        -- lia.
    + apply IH in H; [assumption| |lia|].
      * rewrite length_app, length_firstn. lia.
      * rewrite length_app, length_firstn. lia.
Qed.

Lemma Read_result_bounds_aux {U : unicode.Tables}
      (r : Reader) (C : nat) (res : ReadResult) :
  Read r C = Ok res ->
  List.length (written res) = Nat.min (n res) C
  /\ (n res <= C + 3)%nat
  /\ (n res <= List.length (written res)
               + List.length (remain (reader res)))%nat.
Proof.
  intros H. unfold Read in H.
  apply Read_loop_bounds in H.
  - exact H.
  - rewrite length_firstn. lia.
  - lia.
  - rewrite length_firstn. lia.
Qed.

(** X1. A [Read] never stores more bytes than the buffer holds: it stores
    [min n C] bytes.  The count it returns exceeds the buffer length by at
    most three, and by no more than the bytes it carried over. *)
Theorem Read_result_bounds {U : unicode.Tables}
        (r : Reader) (C : nat) (res : ReadResult) :
  Read r C = Ok res ->
  List.length (written res) = Nat.min (n res) C
  /\ (n res <= C + 3)%nat
  /\ (n res <= List.length (written res)
               + List.length (remain (reader res)))%nat.
Proof. apply Read_result_bounds_aux. Qed.

Lemma Read_result_bounds_witness :
  exists res,
    Read (U := unicode.Latin1) (NewReader (source [dquote; 8364; dquote])) 3
    = Ok res
    /\ List.length (written res) = Nat.min (n res) 3
    /\ (n res <= 3 + 3)%nat
    /\ (n res <= List.length (written res)
                 + List.length (remain (reader res)))%nat.
Proof.
  assert (H : exists res,
             Read (U := unicode.Latin1)
                  (NewReader (source [dquote; 8364; dquote])) 3 = Ok res)
    by (eexists; vm_compute; reflexivity).
  destruct H as [res H]. exists res. split; [exact H|].
  exact (Read_result_bounds _ 3 res H).
Defined.

Lemma Read_loop_full {U : unicode.Tables} (C : nat) :
  forall fuel buf i r res,
    Inv r -> Read_loop fuel C buf i r = Ok res -> rerr res = None ->
    (C <= n res)%nat.
Proof.
  induction fuel as [|fuel IH]; intros buf i r res HI H Hnil; simpl in H.
  - destruct (Nat.ltb_spec i C); [discriminate|].
    injection H as <-. simpl. assumption.
  - destruct (Nat.ltb_spec i C) as [Hlt|Hge].
    2: { injection H as <-. simpl. assumption. }
    destruct (next r) as [[tok r1]| | |] eqn:Hn; simpl in H;
      try discriminate H.
    destruct (next_inv _ _ _ HI Hn) as (HI1 & _ & Htok).
    destruct (typ tok) eqn:Hty.
    + injection H as <-. simpl in Hnil.
      destruct Htok as [[Hne _]|(e & -> & _)]; [contradiction|].
      discriminate Hnil.
    + eapply IH; [|exact H|exact Hnil].
      destruct (_ <? _)%nat; [apply Inv_set_remain|]; assumption.
    + eapply IH; [|exact H|exact Hnil].
      destruct (_ <? _)%nat; [apply Inv_set_remain|]; assumption.
Qed.

(** X2. On a reader reached from [NewReader], a [Read] that returns no
    error has filled the whole buffer: a short read always comes with the
    error that stopped it. *)
Theorem Read_without_error_fills_buffer {U : unicode.Tables}
        (r : Reader) (C : nat) (res : ReadResult) :
  reachable r -> Read r C = Ok res -> rerr res = None ->
  List.length (written res) = C /\ (C <= n res)%nat.
Proof.
  intros Hr H Hnil.
  destruct (Read_result_bounds_aux r C res H) as (H1 & _ & _).
  assert (H4 : (C <= n res)%nat).
  { unfold Read in H. eapply Read_loop_full; [|exact H|exact Hnil].
    apply Inv_set_remain, reachable_Inv, Hr. }
  lia.
Qed.

Lemma Read_without_error_fills_buffer_witness :
  exists res,
    Read (U := unicode.Latin1) (NewReader (source (runes "[1,2,]"))) 4
    = Ok res
    /\ rerr res = None
    /\ List.length (written res) = 4%nat /\ (4 <= n res)%nat.
Proof.
  assert (H : exists res,
             Read (U := unicode.Latin1)
                  (NewReader (source (runes "[1,2,]"))) 4 = Ok res
             /\ rerr res = None)
    by (eexists; split; [vm_compute; reflexivity | reflexivity]).
  destruct H as (res & H & Hnil). exists res.
  split; [exact H|]. split; [exact Hnil|].
  exact (Read_without_error_fills_buffer _ 4 res (reach_new _) H Hnil).
Defined.

Lemma Read_loop_prefix {U : unicode.Tables} (C : nat) :
  forall fuel buf i r res,
    Read_loop fuel C buf i r = Ok res ->
    exists more, written res = buf ++ more.
Proof.
  induction fuel as [|fuel IH]; intros buf i r res H; simpl in H.
  - destruct (i <? C)%nat; [discriminate|].
    injection H as <-. exists []. simpl. now rewrite app_nil_r.
  - destruct (i <? C)%nat.
    2: { injection H as <-. exists []. simpl. now rewrite app_nil_r. }
    destruct (next r) as [[tok r1]| | |]; simpl in H; try discriminate H.
    destruct (typ tok).
    + injection H as <-. exists []. simpl. now rewrite app_nil_r.
    + apply IH in H. destruct H as [more H]. rewrite <- app_assoc in H.
      eexists. exact H.
    + apply IH in H. destruct H as [more H]. rewrite <- app_assoc in H.
      eexists. exact H.
Qed.

(** X3. [Read] delivers the carried-over bytes first.  When the carry
    buffer is at least as long as the buffer, the call returns its first
    [C] bytes and nothing else, and the rest of the carry buffer is
    discarded ([r.remain = nil], reader.go:63): those bytes never reach
    the caller. *)
Theorem Read_carry_buffer {U : unicode.Tables} (r : Reader) (C : nat) :
  (forall res, Read r C = Ok res ->
               exists more, written res = firstn C (remain r) ++ more)
  /\ ((C <= List.length (remain r))%nat ->
      Read r C = Ok {| reader := set_remain [] r;
                       written := firstn C (remain r);
                       n := C; rerr := None |}).
Proof.
  split.
  - intros res H. unfold Read in H.
    apply Read_loop_prefix in H. destruct H as [more H].
    exists more. rewrite H. f_equal.
    destruct (Nat.le_ge_cases C (List.length (remain r))) as [Hle|Hge].
    + now rewrite Nat.min_l.
    + rewrite Nat.min_r by assumption.
      now rewrite firstn_all, firstn_all2.
  - intros Hlen. unfold Read.
    replace (Nat.min C (List.length (remain r))) with C by lia.
    destruct (C + List.length (tokens r))%nat; simpl;
      rewrite Nat.ltb_irrefl; reflexivity.
Qed.

Lemma Read_carry_buffer_witness :
  let r := set_remain (runes "55") (NewReader (source (runes ","))) in
  (1 <= List.length (remain r))%nat
  /\ Read (U := unicode.Latin1) r 1
     = Ok {| reader := set_remain [] r; written := runes "5";
             n := 1; rerr := None |}.
Proof.
  intros r. split; [simpl; lia|].
  apply (proj2 (Read_carry_buffer (U := unicode.Latin1) r 1)).
  simpl. lia.
Defined.

(** ** What [next] returns *)

(** X4. On a reader that satisfies the invariant of the token queue,
    [next] always returns (or the machine panics in [lexHex]): it neither
    blocks nor steps forever.  The carry buffer is untouched; an error
    token is returned only by the error sink, which remains the state with
    an empty queue; a number token is never empty. *)
Theorem next_returns_token_or_sink {U : unicode.Tables} (r : Reader) :
  Inv r ->
  match next r with
  | Ok (tok, r') =>
    Inv r' /\ remain r' = remain r
    /\ (typ tok = tokenError ->
        exists e, err tok = Some e /\ state r' = St_err e /\ tokens r' = [])
    /\ (typ tok = tokenNumber -> num tok <> [])
  | Panic _ => True
  | Blocked | OutOfFuel => False
  end.
Proof.
  intros HI.
  destruct (next_total r) as [[[tok r'] H]|[m H]]; rewrite H; [|exact I].
  destruct (next_inv r tok r' HI H) as (HI' & Hrem & Htok).
  split; [assumption|]. split; [assumption|]. split.
  - intros Hty. destruct Htok as [[Hne _]|(e & -> & Hs & Hq)];
      [contradiction|]. exists e. repeat split; assumption.
  - intros Hty. destruct Htok as [[_ Hnum]|(e & -> & _)];
      [now apply Hnum | discriminate Hty].
Qed.

Lemma next_returns_token_or_sink_witness :
  let r := NewReader (source (runes "0xff,")) in
  Inv r
  /\ match next (U := unicode.Latin1) r with
     | Ok (tok, r') =>
       Inv r' /\ remain r' = remain r
       /\ (typ tok = tokenError ->
           exists e, err tok = Some e /\ state r' = St_err e
                     /\ tokens r' = [])
       /\ (typ tok = tokenNumber -> num tok <> [])
     | Panic _ => True
     | Blocked | OutOfFuel => False
     end.
Proof.
  intros r.
  assert (HI : Inv r).
  { split; [constructor|]. intros e He. discriminate He. }
  split; [exact HI|].
  exact (next_returns_token_or_sink (U := unicode.Latin1) r HI).
Defined.

(** ** The positioned source *)

(** X5. [peek] returns the next rune and gives it back: the source and
    the column are as before and the following [pop] returns the same rune.
    The line is not restored: a peeked newline has advanced it, and the
    [pop] that follows advances it a second time.  At the end of the input
    [peek] returns the source's error and sets the column to the previous
    column. *)
Theorem peek_gives_back (r : Reader) (b : rune) (rest : list rune) :
  (pending (rd r) = b :: rest ->
   let r1 := fst (peek r) in
   snd (peek r) = inl b
   /\ pending (rd r1) = b :: rest /\ col r1 = col r
   /\ line r1 = (if b =? newline then int_succ (line r) else line r)
   /\ snd (pop r1) = inl b
   /\ (b = newline -> line (fst (pop r1)) = int_succ (int_succ (line r))))
  /\ (pending (rd r) = [] ->
      peek r = (set_pos (line r) (lastcol r) (lastcol r) (exhausted r),
                inr (final (rd r)))).
Proof.
  split.
  - intros Hpend. unfold peek. rewrite (pop_cons r b rest Hpend).
    cbv zeta. unfold fst, snd. rewrite push_advance.
    split; [reflexivity|]. split; [reflexivity|].
    split; [reflexivity|]. split; [reflexivity|].
    erewrite pop_cons by reflexivity. unfold fst, snd.
    split; [reflexivity|].
    intros ->. reflexivity.
  - intros Hpend. unfold peek. rewrite (pop_nil r Hpend). reflexivity.
Qed.

Lemma peek_gives_back_witness :
  let r := NewReader (source [newline; rn "a"]) in
  pending (rd r) = [newline; rn "a"]
  /\ snd (peek r) = inl newline
  /\ line (fst (pop (fst (peek r)))) = int_succ (int_succ (line r)).
Proof.
  intros r. split; [reflexivity|].
  destruct (proj1 (peek_gives_back r newline [rn "a"]) eq_refl)
    as (H1 & _ & _ & _ & _ & H6).
  split; [exact H1 | exact (H6 eq_refl)].
Defined.

(** ** Comments and white space *)

Lemma lexLineComment_loop_skips (rest : list rune) :
  forall body fuel r,
    pending (rd r) = body ++ newline :: rest ->
    Forall (fun b => b <> newline) body ->
    (List.length body < fuel)%nat ->
    exists r',
      lexLineComment_loop fuel r = Ok (St_lex, r')
      /\ pending (rd r') = rest /\ tokens r' = tokens r
      /\ comma r' = comma r /\ noident r' = noident r
      /\ remain r' = remain r
      /\ line r' = int_succ (line r) /\ col r' = 0.
Proof.
  induction body as [|b body IH]; intros fuel r Hpend Hbody Hfuel;
    (destruct fuel as [|fuel]; [simpl in Hfuel; lia|]); simpl in Hpend;
    simpl; rewrite (pop_cons r _ _ Hpend).
  - eexists. split; [reflexivity|]. repeat split.
  - apply Forall_cons_iff in Hbody. destruct Hbody as [Hb Hbody].
    apply Z.eqb_neq in Hb. rewrite Hb.
    destruct (IH fuel (advance b (body ++ newline :: rest) r))
      as (r' & H & H1 & H2 & H3 & H4 & H5 & H6 & H7);
      [reflexivity | assumption | simpl in Hfuel; lia |].
    exists r'. split; [exact H|]. simpl in *. rewrite Hb in H6.
    repeat split; assumption.
Qed.

Lemma lexLineComment_loop_eof :
  forall body fuel r,
    pending (rd r) = body ->
    Forall (fun b => b <> newline) body ->
    (List.length body < fuel)%nat ->
    exists r',
      lexLineComment_loop fuel r = Ok (Reader_err r' (final (rd r)), r')
      /\ pending (rd r') = [] /\ tokens r' = tokens r
      /\ remain r' = remain r.
Proof.
  induction body as [|b body IH]; intros fuel r Hpend Hbody Hfuel;
    (destruct fuel as [|fuel]; [simpl in Hfuel; lia|]); simpl.
  - rewrite (pop_nil r Hpend). eexists. split; [reflexivity|].
    repeat split.
  - rewrite (pop_cons r _ _ Hpend).
    apply Forall_cons_iff in Hbody. destruct Hbody as [Hb Hbody].
    apply Z.eqb_neq in Hb. rewrite Hb.
    destruct (IH fuel (advance b body r)) as (r' & H & H1 & H2 & H3);
      [reflexivity | assumption | simpl in Hfuel; lia |].
    exists r'. split; [exact H|]. repeat split; assumption.
Qed.

(** X6. [lexLineComment] discards the rest of the line: up to and
    including the first newline it queues nothing, keeps the flags and the
    carry buffer, and returns to [lex] at column 0 of the next line.  When
    the input ends before a newline it enters the error sink with the
    source's error (the unwrapped [io.EOF] for a source that ends
    normally). *)
Theorem lexLineComment_skips_line
        (r : Reader) (body rest : list rune) :
  Forall (fun b => b <> newline) body ->
  (pending (rd r) = body ++ newline :: rest ->
   exists r',
     lexLineComment r = Ok (St_lex, r')
     /\ pending (rd r') = rest /\ tokens r' = tokens r
     /\ comma r' = comma r /\ noident r' = noident r
     /\ remain r' = remain r
     /\ line r' = int_succ (line r) /\ col r' = 0)
  /\ (pending (rd r) = body ->
      exists r',
        lexLineComment r = Ok (Reader_err r' (final (rd r)), r')
        /\ pending (rd r') = [] /\ tokens r' = tokens r
        /\ (final (rd r) = io_EOF -> Reader_err r' (final (rd r))
                                     = St_err io_EOF)).
Proof.
  intros Hbody. split; intros Hpend; unfold lexLineComment.
  - apply (lexLineComment_loop_skips rest body); try assumption.
    rewrite Hpend, length_app. simpl. lia.
  - destruct (lexLineComment_loop_eof body
                (S (List.length (pending (rd r)))) r Hpend Hbody)
      as (r' & H & H1 & H2 & _); [rewrite Hpend; lia|].
    exists r'. split; [exact H|]. split; [exact H1|]. split; [exact H2|].
    intros ->. reflexivity.
Qed.

Lemma lexLineComment_skips_line_witness :
  let r := set_state St_lexLineComment
             (NewReader (source (runes " note" ++ newline :: runes "1"))) in
  Forall (fun b => b <> newline) (runes " note")
  /\ exists r',
      lexLineComment r = Ok (St_lex, r')
      /\ pending (rd r') = runes "1" /\ line r' = int_succ (line r).
Proof.
  intros r.
  assert (Hbody : Forall (fun b => b <> newline) (runes " note"))
    by (repeat constructor; discriminate).
  split; [exact Hbody|].
  destruct (proj1 (lexLineComment_skips_line r (runes " note") (runes "1")
                                            Hbody) eq_refl)
    as (r' & H & H1 & _ & _ & _ & _ & H6 & _).
  exists r'. repeat split; assumption.
Defined.

Lemma lex_spaces_unfold {U : unicode.Tables}
      (fuel : nat) (b : rune) (r : Reader) :
  lex_spaces fuel b r
  = if unicode.IsSpace b then
      match fuel with
      | O => OutOfFuel
      | S fuel =>
        match pop r with
        | (r, inr e) => Ok (Reader_err r e, r)
        | (r, inl b) => lex_spaces fuel b r
        end
      end
    else Ok (St_lex, push r).
Proof. destruct fuel; reflexivity. Qed.

Lemma lex_spaces_skips {U : unicode.Tables} (c : rune) (rest : list rune) :
  unicode.IsSpace c = false ->
  forall ws fuel b r,
    unicode.IsSpace b = true ->
    Forall (fun b => unicode.IsSpace b = true) ws ->
    pending (rd r) = ws ++ c :: rest ->
    (List.length ws < fuel)%nat ->
    exists r',
      lex_spaces fuel b r = Ok (St_lex, r')
      /\ pending (rd r') = c :: rest /\ tokens r' = tokens r
      /\ comma r' = comma r /\ noident r' = noident r
      /\ remain r' = remain r.
Proof.
  intros Hc. induction ws as [|w ws IH]; intros fuel b r Hb Hws Hpend Hfuel;
    (destruct fuel as [|fuel]; [simpl in Hfuel; lia|]); simpl in Hpend;
    rewrite lex_spaces_unfold, Hb, (pop_cons r _ _ Hpend).
  - rewrite lex_spaces_unfold, Hc. eexists. split; [reflexivity|].
    repeat split.
  - apply Forall_cons_iff in Hws. destruct Hws as [Hw Hws].
    destruct (IH fuel w (advance w (ws ++ c :: rest) r))
      as (r' & H & H1 & H2 & H3 & H4 & H5);
      [assumption | assumption | reflexivity | simpl in Hfuel; lia |].
    exists r'. split; [exact H|]. repeat split; assumption.
Qed.

Lemma lex_spaces_eof {U : unicode.Tables} :
  forall ws fuel b r,
    unicode.IsSpace b = true ->
    Forall (fun b => unicode.IsSpace b = true) ws ->
    pending (rd r) = ws ->
    (List.length ws < fuel)%nat ->
    exists r',
      lex_spaces fuel b r = Ok (Reader_err r' (final (rd r)), r')
      /\ pending (rd r') = [] /\ tokens r' = tokens r.
Proof.
  induction ws as [|w ws IH]; intros fuel b r Hb Hws Hpend Hfuel;
    (destruct fuel as [|fuel]; [simpl in Hfuel; lia|]);
    rewrite lex_spaces_unfold, Hb.
  - rewrite (pop_nil r Hpend). eexists. split; [reflexivity|]. split;
      reflexivity.
  - rewrite (pop_cons r _ _ Hpend).
    apply Forall_cons_iff in Hws. destruct Hws as [Hw Hws].
    destruct (IH fuel w (advance w ws r)) as (r' & H & H1 & H2);
      [assumption | assumption | reflexivity | simpl in Hfuel; lia |].
    exists r'. split; [exact H|]. split; assumption.
Qed.

(** X7. White space is dropped: on a run of spaces [lex] consumes the
    whole run, queues nothing, leaves the flags and the carry buffer as
    they are, and hands the first rune that is not a space back to the
    source.  A run of spaces that ends the input leads to the error sink
    with the source's error. *)
Theorem lex_drops_white_space {U : unicode.Tables}
        (r : Reader) (s : rune) (ws : list rune) (c : rune)
        (rest : list rune) :
  structural s = false -> unicode.IsSpace s = true ->
  Forall (fun b => unicode.IsSpace b = true) ws ->
  unicode.IsSpace c = false ->
  (pending (rd r) = s :: ws ++ c :: rest ->
   exists r',
     lex r = Ok (St_lex, r')
     /\ pending (rd r') = c :: rest /\ tokens r' = tokens r
     /\ comma r' = comma r /\ noident r' = noident r
     /\ remain r' = remain r)
  /\ (pending (rd r) = s :: ws ->
      exists r',
        lex r = Ok (Reader_err r' (final (rd r)), r')
        /\ pending (rd r') = [] /\ tokens r' = tokens r).
Proof.
  intros Hs Hsp Hws Hc. not_structural Hs.
  split; intros Hpend; unfold lex; rewrite (pop_cons r _ _ Hpend);
    rewrite_tests; rewrite Hsp; simpl pending.
  - destruct (lex_spaces_skips c rest Hc ws
                (S (List.length (ws ++ c :: rest))) s
                (advance s (ws ++ c :: rest) r))
      as (r' & H & H1 & H2 & H3 & H4 & H5);
      [assumption | assumption | reflexivity
       | rewrite length_app; simpl; lia |].
    exists r'. split; [exact H|]. repeat split; assumption.
  - destruct (lex_spaces_eof ws (S (List.length ws)) s (advance s ws r))
      as (r' & H & H1 & H2);
      [assumption | assumption | reflexivity | lia |].
    exists r'. split; [exact H|]. split; assumption.
Qed.

Lemma lex_drops_white_space_witness :
  let r := NewReader (source (runes "   {")) in
  structural (rn " ") = false
  /\ unicode.IsSpace (Tables := unicode.Latin1) (rn " ") = true
  /\ exists r',
      lex (U := unicode.Latin1) r = Ok (St_lex, r')
      /\ pending (rd r') = runes "{" /\ tokens r' = [].
Proof.
  intros r. split; [reflexivity|]. split; [reflexivity|].
  assert (Hws : Forall (fun b => unicode.IsSpace (Tables := unicode.Latin1) b
                                 = true) (runes "  "))
    by (repeat constructor).
  destruct (proj1 (lex_drops_white_space
                     (U := unicode.Latin1) r (rn " ") (runes "  ")
                     (rn "{") [] eq_refl eq_refl Hws eq_refl) eq_refl)
    as (r' & H & H1 & H2 & _).
  exists r'. repeat split; assumption.
Defined.

(** ** Hexadecimal literals *)

Lemma index_from_In (r : rune) :
  forall s i, 0 <= i -> strings.index_from i s r <> -1 -> In r s.
Proof.
  induction s as [|c s IH]; intros i Hi H; simpl in H; [contradiction|].
  destruct (Z.eqb_spec c r) as [->|Hne]; [left; reflexivity|].
  right. apply (IH (i + 1)); [lia | assumption].
Qed.

Lemma is_hex_rune (b : rune) : is_hex b = true -> hex_rune b.
Proof.
  intros H. unfold is_hex in H. apply negb_true_iff, Z.eqb_neq in H.
  apply index_from_In in H; [|lia].
  vm_compute in H.
  repeat (destruct H as [<-|H];
          [split; [reflexivity|]; split;
           [eexists; split;
            [reflexivity | cbv; split; [discriminate | reflexivity]]
           | split; reflexivity]|]).
  contradiction.
Qed.

Lemma value_from_cons (v : Z) (b : rune) (ds : list rune) (d : Z) :
  strconv.digit b = Some d ->
  value_from v (b :: ds) = value_from (v * 16 + d) ds.
Proof.
  intros Hd. unfold value_from. cbn [fold_left].
  unfold hex_digit_value at 2. rewrite Hd. reflexivity.
Qed.

Lemma value_from_ge :
  forall ds v, Forall hex_rune ds -> 0 <= v -> v <= value_from v ds.
Proof.
  induction ds as [|b ds IH]; intros v Hds Hv.
  - unfold value_from. cbn [fold_left]. lia.
  - apply Forall_cons_iff in Hds. destruct Hds as [Hb Hds].
    destruct Hb as (_ & (d & Hd & Hr) & _).
    rewrite (value_from_cons v b ds d Hd).
    specialize (IH (v * 16 + d) Hds). lia.
Qed.

Lemma ParseUint_cutoff : (2 ^ 64 - 1) / 16 + 1 = 2 ^ 60.
Proof. reflexivity. Qed.

Lemma ParseUint_loop_hex :
  forall ds v,
    Forall hex_rune ds -> 0 <= v < 2 ^ 64 ->
    strconv.ParseUint_loop ds v
    = if value_from v ds <? 2 ^ 64 then inl (value_from v ds)
      else inr strconv.ErrRange.
Proof.
  induction ds as [|b ds IH]; intros v Hds Hv.
  - unfold value_from. cbn [strconv.ParseUint_loop fold_left].
    destruct (Z.ltb_spec v (2 ^ 64)); [reflexivity | lia].
  - apply Forall_cons_iff in Hds. destruct Hds as [Hb Hds].
    pose proof Hb as (_ & (d & Hd & Hr) & _).
    pose proof (value_from_ge ds (v * 16 + d) Hds ltac:(lia)) as Hge.
    rewrite (value_from_cons v b ds d Hd).
    cbn [strconv.ParseUint_loop]. rewrite Hd, ParseUint_cutoff.
    destruct (Z.geb_spec d 16); [lia|].
    destruct (Z.geb_spec v (2 ^ 60)).
    + destruct (Z.ltb_spec (value_from (v * 16 + d) ds) (2 ^ 64));
        [lia | reflexivity].
    + cbv zeta.
      destruct (Z.gtb_spec (v * 16 + d) (2 ^ 64 - 1)); [lia|].
      apply IH; [assumption | lia].
Qed.

Lemma ParseInt16_hex (ds : list rune) :
  Forall hex_rune ds ->
  (ds <> [] -> hex_value ds < 2 ^ 63 ->
   strconv.ParseInt16 ds = inl (hex_value ds))
  /\ (ds = [] \/ 2 ^ 63 <= hex_value ds ->
      exists e, strconv.ParseInt16 ds = inr e).
Proof.
  intros Hds. destruct ds as [|b ds].
  - split; [intros H; contradiction|]. intros _. eexists. reflexivity.
  - pose proof (ParseUint_loop_hex (b :: ds) 0 Hds ltac:(lia)) as HP.
    fold (hex_value (b :: ds)) in HP. change (value_from 0 (b :: ds))
      with (hex_value (b :: ds)) in HP.
    pose proof (value_from_ge (b :: ds) 0 Hds ltac:(lia)) as Hge.
    change (value_from 0 (b :: ds)) with (hex_value (b :: ds)) in Hge.
    pose proof Hds as Hds'. apply Forall_cons_iff in Hds'.
    destruct Hds' as [(_ & _ & H43 & H45) _].
    unfold strconv.ParseInt16, strconv.ParseUint16.
    rewrite H43, H45. cbn [orb]. cbv iota zeta. rewrite HP.
    split.
    + intros _ Hlt.
      destruct (Z.ltb_spec (hex_value (b :: ds)) (2 ^ 64)); [|lia].
      cbn [negb andb].
      destruct (Z.geb_spec (hex_value (b :: ds)) (2 ^ 63)); [lia|].
      reflexivity.
    + intros [H|Hge63]; [discriminate|].
      destruct (Z.ltb_spec (hex_value (b :: ds)) (2 ^ 64));
        [|eexists; reflexivity].
      cbn [negb andb].
      destruct (Z.geb_spec (hex_value (b :: ds)) (2 ^ 63)); [|lia].
      eexists. reflexivity.
Qed.

Lemma lexHex_loop_gathers (c : rune) (rest : list rune) :
  is_hex c = false ->
  forall ds fuel out r,
    Forall (fun b => is_hex b = true) ds ->
    pending (rd r) = ds ++ c :: rest ->
    (List.length ds < fuel)%nat ->
    exists r1,
      lexHex_loop fuel out r = lexHex_parse (out ++ ds) r1
      /\ pending (rd r1) = c :: rest /\ tokens r1 = tokens r
      /\ remain r1 = remain r.
Proof.
  intros Hc. induction ds as [|b ds IH]; intros fuel out r Hds Hpend Hfuel;
    (destruct fuel as [|fuel]; [simpl in Hfuel; lia|]); simpl in Hpend;
    simpl; rewrite (pop_cons r _ _ Hpend).
  - unfold is_hex in Hc. apply negb_false_iff in Hc.
    unfold not_in. rewrite Hc. rewrite app_nil_r.
    eexists. split; [reflexivity|]. repeat split.
  - apply Forall_cons_iff in Hds. destruct Hds as [Hb Hds].
    pose proof (is_hex_rune b Hb) as (Henc & _).
    unfold is_hex in Hb. apply negb_true_iff in Hb.
    unfold not_in. rewrite Hb, Henc.
    destruct (IH fuel (out ++ [b]) (advance b (ds ++ c :: rest) r))
      as (r1 & H & H1 & H2 & H3);
      [assumption | reflexivity | simpl in Hfuel; lia |].
    exists r1. rewrite <- app_assoc in H. split; [exact H|].
    repeat split; assumption.
Qed.

Lemma lexHex_loop_eof :
  forall ds fuel out r,
    Forall (fun b => is_hex b = true) ds ->
    pending (rd r) = ds ->
    (List.length ds < fuel)%nat ->
    exists r',
      lexHex_loop fuel out r = Ok (Reader_err r' (final (rd r)), r')
      /\ pending (rd r') = [] /\ tokens r' = tokens r.
Proof.
  induction ds as [|b ds IH]; intros fuel out r Hds Hpend Hfuel;
    (destruct fuel as [|fuel]; [simpl in Hfuel; lia|]); simpl.
  - rewrite (pop_nil r Hpend). eexists. split; [reflexivity|].
    split; reflexivity.
  - rewrite (pop_cons r _ _ Hpend).
    apply Forall_cons_iff in Hds. destruct Hds as [Hb Hds].
    unfold is_hex in Hb. apply negb_true_iff in Hb.
    unfold not_in. rewrite Hb.
    destruct (IH fuel (out ++ utf8.EncodeRune b) (advance b ds r))
      as (r' & H & H1 & H2);
      [assumption | reflexivity | simpl in Hfuel; lia |].
    exists r'. split; [exact H|]. split; assumption.
Qed.

(** X8. [lexHex] converts a hexadecimal literal.  With [ds] the run of
    hexadecimal digits at the head of the input and [c] the rune that
    ends it: if there is at least one digit and the value is below 2^63,
    one number token with the decimal text of the value is queued, [c] is
    handed back and the machine returns to [lex]; if there is no digit or
    the value does not fit in an [int64], the reader panics.  If the
    input ends with the digits, nothing is queued and the machine enters
    the error sink: a hexadecimal literal at the very end of the input is
    lost. *)
Theorem lexHex_converts
        (r : Reader) (ds : list rune) (c : rune) (rest : list rune) :
  Forall (fun b => is_hex b = true) ds -> is_hex c = false ->
  (List.length (tokens r) < tokens_cap)%nat ->
  (pending (rd r) = ds ++ c :: rest -> ds <> [] -> hex_value ds < 2 ^ 63 ->
   exists r',
     lexHex r = Ok (St_lex, r')
     /\ tokens r'
        = tokens r ++ [number_token (strconv.FormatInt10 (hex_value ds))]
     /\ pending (rd r') = c :: rest)
  /\ (pending (rd r) = ds ++ c :: rest ->
      ds = [] \/ 2 ^ 63 <= hex_value ds ->
      lexHex r
      = Panic "programming error: we lexed a non-hexadecimal number")
  /\ (pending (rd r) = ds ->
      exists r',
        lexHex r = Ok (Reader_err r' (final (rd r)), r')
        /\ tokens r' = tokens r).
Proof.
  intros Hds Hc Hroom.
  assert (Hrunes : Forall hex_rune ds).
  { eapply Forall_impl; [|exact Hds]. intros b. apply is_hex_rune. }
  destruct (ParseInt16_hex ds Hrunes) as [Hok Hfail].
  split; [|split].
  - intros Hpend Hne Hlt. unfold lexHex.
    destruct (lexHex_loop_gathers c rest Hc ds
                (S (List.length (pending (rd r)))) [] r Hds Hpend)
      as (r1 & H & H1 & H2 & _);
      [rewrite Hpend, length_app; simpl; lia|].
    rewrite H. simpl app. unfold lexHex_parse. rewrite (Hok Hne Hlt).
    unfold send. rewrite H2.
    apply Nat.ltb_lt in Hroom. rewrite Hroom. simpl.
    eexists. split; [reflexivity|]. split; [reflexivity | exact H1].
  - intros Hpend Hbad. unfold lexHex.
    destruct (lexHex_loop_gathers c rest Hc ds
                (S (List.length (pending (rd r)))) [] r Hds Hpend)
      as (r1 & H & _);
      [rewrite Hpend, length_app; simpl; lia|].
    rewrite H. simpl app. unfold lexHex_parse.
    destruct (Hfail Hbad) as [e ->]. reflexivity.
  - intros Hpend. unfold lexHex.
    destruct (lexHex_loop_eof ds (S (List.length (pending (rd r)))) [] r
                              Hds Hpend)
      as (r' & H & _ & H2); [rewrite Hpend; lia|].
    exists r'. split; assumption.
Qed.

Lemma lexHex_converts_witness :
  let r := set_state St_lexHex (NewReader (source (runes "dEcaf,"))) in
  Forall (fun b => is_hex b = true) (runes "dEcaf")
  /\ is_hex (rn ",") = false
  /\ exists r',
      lexHex r = Ok (St_lex, r')
      /\ tokens r' = [number_token (runes "912559")]
      /\ pending (rd r') = runes ",".
Proof.
  intros r.
  assert (Hds : Forall (fun b => is_hex b = true) (runes "dEcaf"))
    by (repeat constructor).
  split; [exact Hds|]. split; [reflexivity|].
  assert (Hroom : (List.length (tokens r) < tokens_cap)%nat)
    by (unfold tokens_cap; simpl; lia).
  assert (Hlt : hex_value (runes "dEcaf") < 2 ^ 63)
    by (vm_compute; reflexivity).
  assert (Hne : runes "dEcaf" <> []) by discriminate.
  exact (proj1 (lexHex_converts r (runes "dEcaf") (rn ",") []
                                Hds eq_refl Hroom) eq_refl Hne Hlt).
Defined.

(** ** Runs of the machine under [Read] *)

Lemma next_loop_enough {U : unicode.Tables} :
  forall f1 f2 r,
    (measure (state r) r < f1)%nat -> (measure (state r) r < f2)%nat ->
    next_loop f1 r = next_loop f2 r.
Proof.
  induction f1 as [|f1 IH]; intros f2 r H1 H2; [lia|].
  destruct f2 as [|f2]; [lia|].
  simpl. destruct (tokens r) as [|tok q] eqn:Hq; [|reflexivity].
  destruct (sink_or_lexing (state r)) as [[e Hs]|Hne].
  - rewrite (step_sink r e Hs Hq). simpl.
    now rewrite !(next_loop_queued _ _ (error_token e) []).
  - pose proof (step_lexing r Hq Hne) as H.
    destruct (step r) as [r'| |m|]; simpl; try reflexivity.
    destruct H as (_ & _ & _ & [Hne'|Hlt] & _).
    + destruct (tokens r') as [|t q'] eqn:Hq'; [contradiction|].
      now rewrite !(next_loop_queued _ _ t q').
    + apply IH; lia.
Qed.

(** A step on the empty queue is a step of [next]. *)
Lemma next_step {U : unicode.Tables} (r r1 : Reader) :
  tokens r = [] -> step r = Ok r1 -> next r = next r1.
Proof.
  intros Hq Hstep. unfold next at 1.
  unfold next_fuel. rewrite Nat.add_succ_r. simpl next_loop.
  rewrite Hq, Hstep. simpl bind.
  destruct (tokens r1) as [|t q] eqn:Hq1.
  - destruct (sink_or_lexing (state r)) as [[e Hs]|Hne].
    + rewrite (step_sink r e Hs Hq) in Hstep. injection Hstep as <-.
      discriminate Hq1.
    + pose proof (step_lexing r Hq Hne) as H. rewrite Hstep in H.
      destruct H as (_ & _ & _ & [Hne'|Hlt] & _); [contradiction|].
      apply next_loop_enough; [|apply measure_lt_next_fuel].
      pose proof (measure_lt_next_fuel r). unfold next_fuel in *. lia.
  - unfold next. now rewrite !(next_loop_queued _ _ t q).
Qed.

Lemma next_queued {U : unicode.Tables} (r : Reader) t q :
  tokens r = t :: q -> next r = Ok (t, set_tokens q r).
Proof. apply next_loop_queued. Qed.

Lemma Read_loop_next {U : unicode.Tables}
      (fuel C : nat) (buf : list byte) (i : nat) (r r1 : Reader) :
  (i < C)%nat -> next r = next r1 ->
  Read_loop fuel C buf i r = Read_loop fuel C buf i r1.
Proof.
  intros Hi Hn. apply Nat.ltb_lt in Hi.
  destruct fuel; simpl; rewrite Hi; [reflexivity|]. now rewrite Hn.
Qed.

Lemma set_tokens_same (r : Reader) : set_tokens (tokens r) r = r.
Proof. destruct r; reflexivity. Qed.

Lemma token_bytes_length (toks : list token) :
  (List.length toks <= List.length (token_bytes toks))%nat.
Proof.
  induction toks as [|t toks IH]; simpl; [lia|].
  rewrite length_app. pose proof (EncodeRune_nonempty (val t)). lia.
Qed.

Lemma emits_nonempty {U : unicode.Tables} (r r' : Reader) toks :
  emits r toks r' -> toks <> [].
Proof.
  induction 1 as [r r1 Hq Hs Hne|r r1 r' toks Hq Hs _ IH]; [assumption|].
  intros H. apply app_eq_nil in H. destruct H as [_ H]. contradiction.
Qed.

(** [Read] consuming the queued rune tokens [q], with [rest] in
    [C - i] bytes still to deliver after them. *)
Lemma Read_loop_queue {U : unicode.Tables} (C : nat) :
  forall q fuel buf i r,
    Forall (fun t => typ t = tokenRune) q ->
    tokens r = q ->
    (i + List.length (token_bytes q) <= C)%nat ->
    (List.length q <= fuel)%nat ->
    exists fuel',
      (fuel = List.length q + fuel')%nat
      /\ Read_loop fuel C buf i r
         = Read_loop fuel' C (buf ++ token_bytes q)
                     (i + List.length (token_bytes q)) (set_tokens [] r).
Proof.
  induction q as [|t q IH]; intros fuel buf i r Hty Hq Hlen Hfuel.
  - exists fuel. split; [reflexivity|]. simpl.
    rewrite app_nil_r, Nat.add_0_r.
    assert (Hr : set_tokens [] r = r)
      by (rewrite <- Hq; apply set_tokens_same).
    now rewrite Hr.
  - destruct fuel as [|fuel]; [simpl in Hfuel; lia|].
    apply Forall_cons_iff in Hty. destruct Hty as [Ht Hty].
    simpl in Hlen. rewrite length_app in Hlen.
    pose proof (EncodeRune_nonempty (val t)) as Hl.
    destruct (IH fuel (buf ++ utf8.EncodeRune (val t))
                 (i + List.length (utf8.EncodeRune (val t)))%nat
                 (set_tokens q r) Hty eq_refl)
      as (fuel' & Hf & H); [lia | simpl in Hfuel; lia|].
    exists fuel'. split; [simpl; lia|].
    simpl Read_loop at 1.
    replace (i <? C)%nat with true by (symmetry; apply Nat.ltb_lt; lia).
    rewrite (next_queued r t q Hq). simpl bind. unfold fst, snd.
    rewrite Ht.
    replace (Nat.min (C - i) (List.length (utf8.EncodeRune (val t))))
      with (List.length (utf8.EncodeRune (val t))) by lia.
    rewrite Nat.ltb_irrefl, firstn_all.
    rewrite H. simpl token_bytes. rewrite length_app.
    rewrite <- app_assoc, Nat.add_assoc. reflexivity.
Qed.

(** [Read] delivers a run of rune tokens that exactly fills the buffer. *)
Lemma emits_Read_loop {U : unicode.Tables} (C : nat) :
  forall r toks r',
    emits r toks r' ->
    Forall (fun t => typ t = tokenRune) toks ->
    forall fuel buf i,
      (i + List.length (token_bytes toks) = C)%nat ->
      (List.length toks <= fuel)%nat ->
      Read_loop fuel C buf i r
      = Ok {| reader := r'; written := buf ++ token_bytes toks;
              n := C; rerr := None |}.
Proof.
  induction 1 as [r r1 Hq Hs Hne|r r1 r' toks Hq Hs Hem IH];
    intros Hty fuel buf i HC Hfuel.
  - assert (Hpos : (1 <= List.length (tokens r1))%nat)
      by (destruct (tokens r1); [contradiction | simpl; lia]).
    pose proof (token_bytes_length (tokens r1)) as Hb.
    rewrite (Read_loop_next fuel C buf i r r1); [|lia|now apply next_step].
    destruct (Read_loop_queue C (tokens r1) fuel buf i r1 Hty eq_refl)
      as (fuel' & _ & H); [lia | lia |].
    rewrite H, HC.
    destruct fuel'; simpl; rewrite Nat.ltb_irrefl; reflexivity.
  - apply Forall_app in Hty. destruct Hty as [Hty1 Hty2].
    pose proof (emits_nonempty _ _ _ Hem) as Hne.
    assert (Hpos : (1 <= List.length (token_bytes toks))%nat).
    { pose proof (token_bytes_length toks).
      destruct toks; [contradiction | simpl in *; lia]. }
    unfold token_bytes in HC, Hpos |- *. rewrite flat_map_app in HC |- *.
    fold (token_bytes (tokens r1)) in HC |- *.
    fold (token_bytes toks) in HC, Hpos |- *.
    rewrite length_app in HC, Hfuel.
    rewrite (Read_loop_next fuel C buf i r r1); [|lia|now apply next_step].
    destruct (Read_loop_queue C (tokens r1) fuel buf i r1 Hty1 eq_refl)
      as (fuel' & Hf & H); [lia | lia |].
    rewrite H. rewrite (IH Hty2); [|lia|lia].
    now rewrite <- app_assoc.
Qed.

Lemma encode_tokens (out : list rune) :
  token_bytes (map rune_token out) = encode out.
Proof.
  induction out as [|b out IH]; simpl; [reflexivity|]. now rewrite IH.
Qed.

Lemma rune_tokens_typ (out : list rune) :
  Forall (fun t => typ t = tokenRune) (map rune_token out).
Proof. induction out; simpl; constructor; auto. Qed.

Lemma emits_Read {U : unicode.Tables} (r r' : Reader) (out : list rune) :
  emits r (map rune_token out) r' -> remain r = [] ->
  Read r (List.length (encode out))
  = Ok {| reader := r'; written := encode out;
          n := List.length (encode out); rerr := None |}.
Proof.
  intros Hem Hrem. unfold Read. rewrite Hrem. simpl List.length.
  rewrite Nat.min_0_r. simpl firstn.
  assert (Hr : set_remain [] r = r)
    by (destruct r; simpl in *; subst; reflexivity).
  rewrite Hr.
  rewrite (emits_Read_loop _ r (map rune_token out) r' Hem
                           (rune_tokens_typ out));
    rewrite ?encode_tokens; try reflexivity.
  pose proof (token_bytes_length (map rune_token out)) as H.
  rewrite encode_tokens in H. lia.
Qed.

Lemma emits_app {U : unicode.Tables} (r r1 r2 : Reader) toks1 toks2 :
  emits r toks1 r1 -> emits r1 toks2 r2 -> emits r (toks1 ++ toks2) r2.
Proof.
  induction 1 as [r r1 Hq Hs Hne|r r1 r' toks Hq Hs Hem IH]; intros H2.
  - now apply emits_step.
  - rewrite <- app_assoc. apply emits_step; auto.
Qed.

Lemma step_call {U : unicode.Tables} (r r1 : Reader) (f f' : stateFunc) :
  state r = f -> call f r = Ok (f', r1) -> step r = Ok (set_state f' r1).
Proof. intros Hs Hc. unfold step. rewrite Hs, Hc. reflexivity. Qed.

(** ** Unquoted keys *)

Lemma identifier_emits {U : unicode.Tables} (rest : list rune) :
  identifier_part (rn ":") = false ->
  forall ks r,
    state r = St_lexIdentifier -> tokens r = [] ->
    Forall (fun b => identifier_part b = true) ks ->
    pending (rd r) = ks ++ rn ":" :: rest ->
    exists r',
      emits r (map rune_token (ks ++ [dquote])) r'
      /\ state r' = St_lex /\ pending (rd r') = rn ":" :: rest
      /\ tokens r' = [] /\ remain r' = remain r
      /\ comma r' = comma r /\ noident r' = noident r.
Proof.
  intros Hcolon. induction ks as [|k ks IH]; intros r Hs Hq Hks Hpend;
    simpl in Hpend.
  - assert (Hc : call St_lexIdentifier r
                 = Ok (St_lex,
                       push (set_tokens [rune_token dquote]
                               (advance (rn ":") rest r)))).
    { simpl. unfold lexIdentifier. rewrite (pop_cons r _ _ Hpend).
      unfold identifier_part in Hcolon. rewrite Hcolon. simpl.
      unfold emit, send. simpl. rewrite Hq. reflexivity. }
    pose proof (step_call r _ _ _ Hs Hc) as Hstep.
    eexists. split.
    + apply (emits_last r _ Hq Hstep). discriminate.
    + repeat split.
  - apply Forall_cons_iff in Hks. destruct Hks as [Hk Hks].
    assert (Hc : call St_lexIdentifier r
                 = Ok (St_lexIdentifier,
                       set_tokens [rune_token k]
                         (advance k (ks ++ rn ":" :: rest) r))).
    { simpl. unfold lexIdentifier. rewrite (pop_cons r _ _ Hpend).
      unfold identifier_part in Hk. rewrite Hk.
      unfold emit, send. simpl. rewrite Hq. reflexivity. }
    pose proof (step_call r _ _ _ Hs Hc) as Hstep.
    destruct (IH (set_tokens []
                    (set_state St_lexIdentifier
                       (set_tokens [rune_token k]
                          (advance k (ks ++ rn ":" :: rest) r)))))
      as (r' & Hem & H1 & H2 & H3 & H4 & H5 & H6);
      [reflexivity | reflexivity | assumption | reflexivity |].
    exists r'. split.
    + apply (emits_step r _ r' _ Hq Hstep Hem).
    + repeat split; assumption.
Qed.

Lemma key_emits {U : unicode.Tables}
      (r : Reader) (k : rune) (ks rest : list rune) :
  state r = St_lex -> tokens r = [] -> noident r = false ->
  key_start k = true ->
  Forall (fun b => identifier_part b = true) ks ->
  identifier_part (rn ":") = false ->
  pending (rd r) = k :: ks ++ rn ":" :: rest ->
  exists r',
    emits r (map rune_token
                 (pending_comma r ++ dquote :: k :: ks
                                ++ [dquote; rn ":"])) r'
    /\ state r' = St_lex /\ noident r' = true /\ comma r' = false
    /\ pending (rd r') = rest /\ tokens r' = []
    /\ remain r' = remain r.
Proof.
  intros Hs Hq Hn Hk Hks Hcolon Hpend.
  unfold key_start in Hk.
  apply andb_prop in Hk. destruct Hk as [Hk Hletter].
  apply andb_prop in Hk. destruct Hk as [Hstr Hsp].
  apply negb_true_iff in Hstr, Hsp.
  (* the step of [lex] that opens the key *)
  assert (Hc : call St_lex r
               = Ok (St_lexIdentifier,
                     set_tokens (map rune_token
                                     (pending_comma r ++ [dquote; k]))
                       (set_comma false
                          (advance k (ks ++ rn ":" :: rest) r)))).
  { simpl. unfold lex. rewrite (pop_cons r _ _ Hpend).
    not_structural Hstr. rewrite_tests. rewrite Hsp.
    unfold maybeEmitComma, emit, send, pending_comma, advance.
    destruct (comma r); simpl; rewrite Hq; simpl; rewrite Hn;
      cbn [negb andb]; rewrite Hletter; reflexivity. }
  pose proof (step_call r _ _ _ Hs Hc) as Hstep.
  destruct (identifier_emits rest Hcolon ks
              (set_tokens []
                 (set_state St_lexIdentifier
                    (set_tokens (map rune_token
                                     (pending_comma r ++ [dquote; k]))
                       (set_comma false
                          (advance k (ks ++ rn ":" :: rest) r))))))
    as (r2 & Hem & H1 & H2 & H3 & H4 & H5 & H6);
    [reflexivity | reflexivity | assumption | reflexivity |].
  (* the step of [lex] on the colon *)
  assert (Hc2 : call St_lex r2
                = Ok (St_lex,
                      set_tokens [rune_token (rn ":")]
                        (set_noident true (advance (rn ":") rest r2)))).
  { simpl. unfold lex. rewrite (pop_cons r2 _ _ H2). simpl.
    unfold emit, send. simpl. rewrite H3. reflexivity. }
  pose proof (step_call r2 _ _ _ H1 Hc2) as Hstep2.
  eexists. split.
  - replace (map rune_token
                 (pending_comma r ++ dquote :: k :: ks ++ [dquote; rn ":"]))
      with (map rune_token (pending_comma r ++ [dquote; k])
            ++ map rune_token (ks ++ [dquote]) ++ [rune_token (rn ":")]).
    + apply (emits_step r _ _ _ Hq Hstep).
      eapply emits_app; [exact Hem|].
      apply (emits_last r2 _ H3 Hstep2). discriminate.
    + rewrite !map_app. simpl. rewrite !map_app. simpl.
      rewrite <- !app_assoc. reflexivity.
  - simpl. repeat split; try reflexivity; try assumption.
Qed.

(** X9. An unquoted key is quoted.  In [lex] with [noident] clear, on a
    key [k ks] followed by a colon, [Read] with a buffer of exactly the
    right length returns the pending comma (if any), then the key between
    double quotes, then the colon, in UTF-8, and leaves the machine in
    [lex] after the colon with [noident] set. *)
Theorem Read_quotes_bare_key {U : unicode.Tables}
        (r : Reader) (k : rune) (ks rest : list rune) :
  state r = St_lex -> tokens r = [] -> remain r = [] ->
  noident r = false ->
  key_start k = true ->
  Forall (fun b => identifier_part b = true) ks ->
  identifier_part (rn ":") = false ->
  pending (rd r) = k :: ks ++ rn ":" :: rest ->
  let out := pending_comma r ++ dquote :: k :: ks ++ [dquote; rn ":"] in
  exists r',
    Read r (List.length (encode out))
    = Ok {| reader := r'; written := encode out;
            n := List.length (encode out); rerr := None |}
    /\ state r' = St_lex /\ noident r' = true /\ comma r' = false
    /\ pending (rd r') = rest.
Proof.
  intros Hs Hq Hrem Hn Hk Hks Hcolon Hpend out.
  destruct (key_emits r k ks rest Hs Hq Hn Hk Hks Hcolon Hpend)
    as (r' & Hem & H1 & H2 & H3 & H4 & _).
  exists r'. split; [now apply emits_Read|].
  repeat split; assumption.
Qed.

Lemma Read_quotes_bare_key_witness :
  let r := set_comma true (NewReader (source (runes "key: 1"))) in
  exists r',
    Read (U := unicode.Latin1) r 7
    = Ok {| reader := r';
            written := runes "," ++ dquote :: runes "key" ++ dquote
                             :: runes ":";
            n := 7; rerr := None |}
    /\ state r' = St_lex /\ noident r' = true /\ comma r' = false
    /\ pending (rd r') = runes " 1".
Proof.
  intros r.
  assert (Hks : Forall (fun b => identifier_part
                                   (U := unicode.Latin1) b = true)
                       (runes "ey"))
    by (repeat constructor).
  exact (Read_quotes_bare_key (U := unicode.Latin1) r (rn "k") (runes "ey")
           (runes " 1") eq_refl eq_refl eq_refl eq_refl eq_refl Hks
           eq_refl eq_refl).
Defined.

(** ** Strings *)

Lemma string_emits (q : rune) (rest : list rune) {U : unicode.Tables} :
  q = dquote \/ q = rn "'" ->
  forall m body r,
    (List.length body <= m)%nat ->
    state r = St_lexString -> tokens r = [] -> quote r = q ->
    closed_body q body = true ->
    pending (rd r) = body ++ q :: rest ->
    exists r',
      emits r (map rune_token (string_out body ++ [dquote])) r'
      /\ state r' = St_lex /\ pending (rd r') = rest /\ tokens r' = []
      /\ remain r' = remain r /\ comma r' = comma r
      /\ noident r' = noident r.
Proof.
  intros Hquote.
  assert (Hqn : (q =? newline) = false /\ (q =? 13) = false
                /\ (q =? rn "\") = false)
    by (destruct Hquote as [-> | ->]; repeat split; reflexivity).
  destruct Hqn as (Hq1 & Hq2 & Hq3).
  induction m as [|m IH]; intros body r Hlen Hs Hq Hqr Hbody Hpend.
  - destruct body as [|b body]; [|simpl in Hlen; lia]. simpl in Hpend.
    assert (Hc : call St_lexString r
                 = Ok (St_lex, set_tokens [rune_token dquote]
                                 (advance q rest r))).
    { simpl. unfold lexString. rewrite (pop_cons r _ _ Hpend). simpl quote.
      rewrite Hqr, Z.eqb_refl. unfold emit, send. simpl. rewrite Hq.
      reflexivity. }
    pose proof (step_call r _ _ _ Hs Hc) as Hstep.
    eexists. split.
    + apply (emits_last r _ Hq Hstep). discriminate.
    + repeat split.
  - destruct body as [|b body].
    { apply (IH [] r); auto. simpl. lia. }
    simpl in Hpend, Hbody, Hlen.
    destruct ((b =? q) || (b =? newline) || (b =? 13)) eqn:Hb;
      [discriminate|].
    apply orb_false_elim in Hb. destruct Hb as [Hb Hb3].
    apply orb_false_elim in Hb. destruct Hb as [Hb1 Hb2].
    destruct (b =? rn "\") eqn:Hbs.
    + (* an escape *)
      destruct body as [|next body]; [discriminate|]. simpl in Hpend, Hlen.
      assert (Hc : call St_lexString r
                   = Ok (St_lexString,
                         set_tokens
                           [rune_token (rn "\");
                            rune_token (if next =? newline then rn "n"
                                        else next)]
                           (advance next (body ++ q :: rest)
                              (advance b (next :: body ++ q :: rest) r)))).
      { simpl. unfold lexString. rewrite (pop_cons r _ _ Hpend). simpl quote.
        rewrite Hqr, Hb1, Hb2, Hb3, Hbs. simpl orb. cbv iota.
        erewrite pop_cons by reflexivity.
        unfold emit, send. simpl. rewrite Hq. simpl.
        destruct (next =? newline); reflexivity. }
      pose proof (step_call r _ _ _ Hs Hc) as Hstep.
      destruct (IH body
                  (set_tokens []
                     (set_state St_lexString
                        (set_tokens
                           [rune_token (rn "\");
                            rune_token (if next =? newline then rn "n"
                                        else next)]
                           (advance next (body ++ q :: rest)
                              (advance b (next :: body ++ q :: rest) r))))))
        as (r' & Hem & H1 & H2 & H3 & H4 & H5 & H6);
        [lia | reflexivity | reflexivity | exact Hqr | exact Hbody
         | reflexivity |].
      exists r'. split.
      * simpl string_out. rewrite Hbs.
        apply (emits_step r _ r' _ Hq Hstep Hem).
      * repeat split; assumption.
    + destruct (b =? dquote) eqn:Hbd.
      * (* a double quote inside single quotes *)
        apply Z.eqb_eq in Hbd. subst b.
        assert (Hc : call St_lexString r
                     = Ok (St_lexString,
                           set_tokens
                             [rune_token (rn "\"); rune_token dquote]
                             (advance dquote (body ++ q :: rest) r))).
        { simpl. unfold lexString. rewrite (pop_cons r _ _ Hpend).
          simpl quote. rewrite Hqr, Hb1. simpl.
          unfold emit, send. simpl. rewrite Hq. reflexivity. }
        pose proof (step_call r _ _ _ Hs Hc) as Hstep.
        destruct (IH body
                    (set_tokens []
                       (set_state St_lexString
                          (set_tokens
                             [rune_token (rn "\"); rune_token dquote]
                             (advance dquote (body ++ q :: rest) r)))))
          as (r' & Hem & H1 & H2 & H3 & H4 & H5 & H6);
          [lia | reflexivity | reflexivity | exact Hqr | exact Hbody
           | reflexivity |].
        exists r'. split.
        -- change (string_out (dquote :: body))
             with (rn "\" :: dquote :: string_out body).
           apply (emits_step r _ r' _ Hq Hstep Hem).
        -- repeat split; assumption.
      * (* any other rune *)
        assert (Hc : call St_lexString r
                     = Ok (St_lexString,
                           set_tokens [rune_token b]
                             (advance b (body ++ q :: rest) r))).
        { simpl. unfold lexString. rewrite (pop_cons r _ _ Hpend).
          simpl quote. rewrite Hqr, Hb1, Hb2, Hb3, Hbs, Hbd.
          unfold emit, send. simpl. rewrite Hq. reflexivity. }
        pose proof (step_call r _ _ _ Hs Hc) as Hstep.
        destruct (IH body
                    (set_tokens []
                       (set_state St_lexString
                          (set_tokens [rune_token b]
                             (advance b (body ++ q :: rest) r)))))
          as (r' & Hem & H1 & H2 & H3 & H4 & H5 & H6);
          [lia | reflexivity | reflexivity | exact Hqr | exact Hbody
           | reflexivity |].
        exists r'. split.
        -- simpl string_out. rewrite Hbs, Hbd.
           apply (emits_step r _ r' _ Hq Hstep Hem).
        -- repeat split; assumption.
Qed.

(** X10. Strings are rewritten with double quotes.  In [lex], on a string
    opened by [q] (a double or a single quote) whose body is closed by the
    same quote, [Read] with a buffer of exactly the right length returns
    the pending comma (if any), a double quote, the body with a backslash
    before every raw double quote and with backslash-newline turned into
    backslash-n (any other escaped rune is kept with its backslash), and
    a double quote; the machine is back in [lex] after the closing
    quote. *)
Theorem Read_translates_string {U : unicode.Tables}
        (r : Reader) (q : rune) (body rest : list rune) :
  state r = St_lex -> tokens r = [] -> remain r = [] ->
  q = dquote \/ q = rn "'" ->
  closed_body q body = true ->
  pending (rd r) = q :: body ++ q :: rest ->
  let out := pending_comma r ++ dquote :: string_out body ++ [dquote] in
  exists r',
    Read r (List.length (encode out))
    = Ok {| reader := r'; written := encode out;
            n := List.length (encode out); rerr := None |}
    /\ state r' = St_lex /\ pending (rd r') = rest
    /\ comma r' = false /\ noident r' = noident r.
Proof.
  intros Hs Hq Hrem Hquote Hbody Hpend out.
  assert (Hc : call St_lex r
               = Ok (St_lexString,
                     set_tokens (map rune_token (pending_comma r ++ [dquote]))
                       (set_quote q
                          (set_comma false
                             (advance q (body ++ q :: rest) r))))).
  { simpl. unfold lex. rewrite (pop_cons r _ _ Hpend).
    replace ((q =? dquote) || (q =? rn "'")) with true
      by (destruct Hquote as [-> | ->]; reflexivity).
    unfold maybeEmitComma, emit, send, pending_comma, advance.
    destruct (comma r); simpl; rewrite Hq; reflexivity. }
  pose proof (step_call r _ _ _ Hs Hc) as Hstep.
  destruct (string_emits q rest Hquote (List.length body) body
              (set_tokens []
                 (set_state St_lexString
                    (set_tokens (map rune_token (pending_comma r ++ [dquote]))
                       (set_quote q
                          (set_comma false
                             (advance q (body ++ q :: rest) r)))))))
    as (r' & Hem & H1 & H2 & H3 & H4 & H5 & H6);
    [lia | reflexivity | reflexivity | reflexivity | exact Hbody
     | reflexivity |].
  exists r'. split.
  - apply emits_Read; [|exact Hrem].
    replace (map rune_token out)
      with (map rune_token (pending_comma r ++ [dquote])
            ++ map rune_token (string_out body ++ [dquote])).
    + apply (emits_step r _ r' _ Hq Hstep Hem).
    + unfold out. rewrite <- map_app, <- app_assoc. reflexivity.
  - repeat split; assumption.
Qed.

Lemma Read_translates_string_witness :
  let r := NewReader (source (runes "'say " ++ dquote :: runes "hi"
                                    ++ dquote :: runes "',")) in
  exists r',
    Read (U := unicode.Latin1) r 12
    = Ok {| reader := r';
            written := dquote :: runes "say \" ++ dquote :: runes "hi\"
                              ++ dquote :: [dquote];
            n := 12; rerr := None |}
    /\ state r' = St_lex /\ pending (rd r') = runes ","
    /\ comma r' = false /\ noident r' = noident r.
Proof.
  intros r.
  exact (Read_translates_string (U := unicode.Latin1) r (rn "'")
           (runes "say " ++ dquote :: runes "hi" ++ [dquote]) (runes ",")
           eq_refl eq_refl eq_refl (or_intror eq_refl) eq_refl eq_refl).
Defined.

(** ** Values after a colon *)

Lemma word_emits {U : unicode.Tables} (rest : list rune) :
  forall ws w r,
    state r = St_lex -> tokens r = [] -> noident r = true ->
    Forall (fun b => passes_through b = true) (w :: ws) ->
    pending (rd r) = w :: ws ++ rest ->
    exists r',
      emits r (map rune_token (pending_comma r ++ w :: ws)) r'
      /\ state r' = St_lex /\ pending (rd r') = rest /\ tokens r' = []
      /\ noident r' = true /\ comma r' = false /\ remain r' = remain r.
Proof.
  induction ws as [|w2 ws IH]; intros w r Hs Hq Hn Hws Hpend;
    apply Forall_cons_iff in Hws; destruct Hws as [Hw Hws];
    unfold passes_through in Hw;
    apply andb_prop in Hw; destruct Hw as [Hw Hnum];
    apply andb_prop in Hw; destruct Hw as [Hw Hid];
    apply andb_prop in Hw; destruct Hw as [Hstr Hsp];
    apply negb_true_iff in Hstr, Hsp, Hid, Hnum;
    unfold starts_number in Hnum;
    apply orb_false_elim in Hnum; destruct Hnum as [Hnum _];
    apply orb_false_elim in Hnum; destruct Hnum as [Hnum _].
  - simpl in Hpend.
    assert (Hc : call St_lex r
                 = Ok (St_lex,
                       set_tokens (map rune_token (pending_comma r ++ [w]))
                         (set_comma false (advance w rest r)))).
    { simpl. unfold lex. rewrite (pop_cons r _ _ Hpend).
      not_structural Hstr. rewrite_tests. rewrite Hsp.
      unfold maybeEmitComma, emit, send, pending_comma, advance.
      simpl in Hid, Hnum.
      destruct (comma r); simpl; rewrite Hq; simpl; rewrite Hn;
        cbn [negb andb orb]; rewrite Hid, Hnum; reflexivity. }
    pose proof (step_call r _ _ _ Hs Hc) as Hstep.
    eexists. split.
    + apply (emits_last r _ Hq Hstep).
      simpl. destruct (pending_comma r); discriminate.
    + simpl. repeat split; try reflexivity; assumption.
  - simpl in Hpend.
    assert (Hc : call St_lex r
                 = Ok (St_lex,
                       set_tokens (map rune_token (pending_comma r ++ [w]))
                         (set_comma false
                            (advance w (w2 :: ws ++ rest) r)))).
    { simpl. unfold lex. rewrite (pop_cons r _ _ Hpend).
      not_structural Hstr. rewrite_tests. rewrite Hsp.
      unfold maybeEmitComma, emit, send, pending_comma, advance.
      simpl in Hid, Hnum.
      destruct (comma r); simpl; rewrite Hq; simpl; rewrite Hn;
        cbn [negb andb orb]; rewrite Hid, Hnum; reflexivity. }
    pose proof (step_call r _ _ _ Hs Hc) as Hstep.
    destruct (IH w2
                (set_tokens []
                   (set_state St_lex
                      (set_tokens (map rune_token (pending_comma r ++ [w]))
                         (set_comma false
                            (advance w (w2 :: ws ++ rest) r))))))
      as (r' & Hem & H1 & H2 & H3 & H4 & H5 & H6);
      [reflexivity | reflexivity | exact Hn | exact Hws | reflexivity |].
    exists r'. split.
    + replace (map rune_token (pending_comma r ++ w :: w2 :: ws))
        with (map rune_token (pending_comma r ++ [w])
              ++ map rune_token (w2 :: ws)).
      * apply (emits_step r _ r' _ Hq Hstep). exact Hem.
      * rewrite <- map_app, <- app_assoc. reflexivity.
    + repeat split; assumption.
Qed.

(** X11. After a colon a bare word is passed on as it is.  In [lex] with
    [noident] set, on a run of runes none of which has a case of its own,
    is a space, is [$], [_] or [\], or starts a number, [Read] with a
    buffer of exactly the right length returns the pending comma (if any)
    and the runes unchanged, without quotes, and stays in [lex]. *)
Theorem Read_passes_value_word {U : unicode.Tables}
        (r : Reader) (w : rune) (ws rest : list rune) :
  state r = St_lex -> tokens r = [] -> remain r = [] ->
  noident r = true ->
  Forall (fun b => passes_through b = true) (w :: ws) ->
  pending (rd r) = w :: ws ++ rest ->
  let out := pending_comma r ++ w :: ws in
  exists r',
    Read r (List.length (encode out))
    = Ok {| reader := r'; written := encode out;
            n := List.length (encode out); rerr := None |}
    /\ state r' = St_lex /\ pending (rd r') = rest
    /\ noident r' = true /\ comma r' = false.
Proof.
  intros Hs Hq Hrem Hn Hws Hpend out.
  destruct (word_emits rest ws w r Hs Hq Hn Hws Hpend)
    as (r' & Hem & H1 & H2 & _ & H4 & H5 & _).
  exists r'. split; [now apply emits_Read|].
  repeat split; assumption.
Qed.

Lemma Read_passes_value_word_witness :
  let r := set_noident true (NewReader (source (runes "true}"))) in
  exists r',
    Read (U := unicode.Latin1) r 4
    = Ok {| reader := r'; written := runes "true"; n := 4; rerr := None |}
    /\ state r' = St_lex /\ pending (rd r') = runes "}"
    /\ noident r' = true /\ comma r' = false.
Proof.
  intros r.
  assert (Hws : Forall (fun b => passes_through (U := unicode.Latin1) b
                                 = true) (runes "true"))
    by (repeat constructor).
  exact (Read_passes_value_word (U := unicode.Latin1) r (rn "t")
           (runes "rue") (runes "}") eq_refl eq_refl eq_refl eq_refl Hws
           eq_refl).
Defined.

(** ** Integers *)

Lemma is_digit_facts (b : rune) :
  is_digit b = true ->
  In b (runes "0123456789")
  /\ (b =? rn ".") = false
  /\ not_in "0123456789eE.+-" b = false
  /\ (b =? rn "e") || (b =? rn "E") = false.
Proof.
  intros H. unfold is_digit in H. apply negb_true_iff, Z.eqb_neq in H.
  apply index_from_In in H; [|lia].
  split; [exact H|].
  vm_compute in H.
  repeat (destruct H as [<-|H]; [repeat split; reflexivity|]).
  contradiction.
Qed.

Lemma digits_emit {U : unicode.Tables} (rest : list rune) :
  forall ds d r,
    state r = St_lexNumber -> tokens r = [] ->
    Forall (fun b => is_digit b = true) (d :: ds) ->
    pending (rd r) = d :: ds ++ rest ->
    exists r',
      emits r (map rune_token (d :: ds)) r'
      /\ state r' = St_lexNumber /\ pending (rd r') = rest
      /\ tokens r' = [] /\ remain r' = remain r
      /\ comma r' = comma r /\ noident r' = noident r.
Proof.
  induction ds as [|d2 ds IH]; intros d r Hs Hq Hds Hpend;
    apply Forall_cons_iff in Hds; destruct Hds as [Hd Hds];
    destruct (is_digit_facts d Hd) as (_ & Hdot & Hin & He);
    simpl in Hpend.
  - assert (Hc : call St_lexNumber r
                 = Ok (St_lexNumber,
                       set_tokens [rune_token d] (advance d rest r))).
    { simpl. unfold lexNumber. rewrite (pop_cons r _ _ Hpend).
      rewrite Hdot, Hin, He. unfold emit, send. simpl. rewrite Hq.
      reflexivity. }
    pose proof (step_call r _ _ _ Hs Hc) as Hstep.
    eexists. split.
    + apply (emits_last r _ Hq Hstep). discriminate.
    + repeat split.
  - assert (Hc : call St_lexNumber r
                 = Ok (St_lexNumber,
                       set_tokens [rune_token d]
                         (advance d (d2 :: ds ++ rest) r))).
    { simpl. unfold lexNumber. rewrite (pop_cons r _ _ Hpend).
      rewrite Hdot, Hin, He. unfold emit, send. simpl. rewrite Hq.
      reflexivity. }
    pose proof (step_call r _ _ _ Hs Hc) as Hstep.
    destruct (IH d2
                (set_tokens []
                   (set_state St_lexNumber
                      (set_tokens [rune_token d]
                         (advance d (d2 :: ds ++ rest) r)))))
      as (r' & Hem & H1 & H2 & H3 & H4 & H5 & H6);
      [reflexivity | reflexivity | exact Hds | reflexivity |].
    exists r'. split.
    + apply (emits_step r _ r' _ Hq Hstep Hem).
    + repeat split; assumption.
Qed.

Lemma lex_hands_over_digit {U : unicode.Tables}
      (r : Reader) (d : rune) (rest : list rune) :
  tokens r = [] ->
  is_digit d = true -> starts_number d = true ->
  unicode.IsSpace d = false ->
  noident r = true \/ unicode.IsLetter d = false ->
  pending (rd r) = d :: rest ->
  call St_lex r
  = Ok (St_lexNumber,
        push (set_tokens (map rune_token (pending_comma r))
                (set_comma false (advance d rest r)))).
Proof.
  intros Hq Hd Hnum Hsp Hcond Hpend.
  destruct (is_digit_facts d Hd) as (Hin & _).
  simpl. unfold lex. rewrite (pop_cons r _ _ Hpend).
  vm_compute in Hin.
  repeat (destruct Hin as [<-|Hin];
          [try discriminate Hnum;
           simpl; simpl in Hsp; rewrite Hsp;
           unfold maybeEmitComma, emit, send, pending_comma, advance;
           destruct (comma r); simpl; rewrite Hq; simpl;
           (destruct Hcond as [Hn|Hl];
            [rewrite Hn | simpl in Hl; rewrite Hl, andb_false_r]);
           reflexivity|]).
  contradiction.
Qed.

(** X12. A decimal integer is passed on unchanged.  In [lex], on a digit
    from 1 to 8 followed by decimal digits, [Read] with a buffer of
    exactly the right length returns the pending comma (if any) and the
    digits, and leaves the machine in [lexNumber] in front of the rune
    that follows them. *)
Theorem Read_passes_integer {U : unicode.Tables}
        (r : Reader) (d : rune) (ds rest : list rune) :
  state r = St_lex -> tokens r = [] -> remain r = [] ->
  is_digit d = true -> starts_number d = true ->
  unicode.IsSpace d = false ->
  noident r = true \/ unicode.IsLetter d = false ->
  Forall (fun b => is_digit b = true) ds ->
  pending (rd r) = d :: ds ++ rest ->
  let out := pending_comma r ++ d :: ds in
  exists r',
    Read r (List.length (encode out))
    = Ok {| reader := r'; written := encode out;
            n := List.length (encode out); rerr := None |}
    /\ state r' = St_lexNumber /\ pending (rd r') = rest
    /\ comma r' = false /\ noident r' = noident r.
Proof.
  intros Hs Hq Hrem Hd Hnum Hsp Hcond Hds Hpend out.
  pose proof (lex_hands_over_digit r d (ds ++ rest) Hq Hd Hnum Hsp Hcond
                                   Hpend) as Hc.
  pose proof (step_call r _ _ _ Hs Hc) as Hstep.
  destruct (digits_emit rest ds d
              (set_tokens []
                 (set_state St_lexNumber
                    (push (set_tokens (map rune_token (pending_comma r))
                             (set_comma false
                                (advance d (ds ++ rest) r)))))))
    as (r' & Hem & H1 & H2 & H3 & H4 & H5 & H6);
    [reflexivity | reflexivity | now constructor | reflexivity |].
  exists r'. split.
  - apply emits_Read; [|exact Hrem].
    unfold out. rewrite map_app.
    apply (emits_step r _ r' _ Hq Hstep Hem).
  - repeat split; assumption.
Qed.

Lemma Read_passes_integer_witness :
  let r := set_comma true (NewReader (source (runes "1234]"))) in
  exists r',
    Read (U := unicode.Latin1) r 5
    = Ok {| reader := r'; written := runes ",1234"; n := 5;
            rerr := None |}
    /\ state r' = St_lexNumber /\ pending (rd r') = runes "]"
    /\ comma r' = false /\ noident r' = noident r.
Proof.
  intros r.
  assert (Hds : Forall (fun b => is_digit b = true) (runes "234"))
    by (repeat constructor).
  exact (Read_passes_integer (U := unicode.Latin1) r (rn "1")
           (runes "234") (runes "]") eq_refl eq_refl eq_refl eq_refl
           eq_refl eq_refl (or_intror eq_refl) Hds eq_refl).
Defined.

(** ** The byte stream across [Read] calls *)

Lemma set_remain_nil (r : Reader) : remain r = [] -> set_remain [] r = r.
Proof. intros H. destruct r; simpl in *; subst; reflexivity. Qed.

Lemma next_remain {U : unicode.Tables} (r r1 : Reader) (tok : token) :
  next r = Ok (tok, r1) -> remain r1 = remain r.
Proof. intros H. now destruct (next_loop_post _ _ _ _ H). Qed.

(** The loop of [Read] along a token stream: it does not panic, and what
    it stores, carries over and leaves to come is the stream it started
    with. *)
Lemma Read_loop_stream {U : unicode.Tables}
      (C K : nat) (e : error) (Q : token -> Prop) :
  forall fuel buf i r toks,
    drains (set_remain [] r) toks e ->
    ((i < C)%nat -> remain r = []) ->
    Forall (fun t => (List.length (tok_bytes t) <= K)%nat /\ Q t) toks ->
    (List.length (remain r) <= K)%nat ->
    match Read_loop fuel C buf i r with
    | Ok res =>
      match rerr res with
      | None =>
        (C <= n res)%nat
        /\ (List.length (remain (reader res)) <= K)%nat
        /\ exists toks',
            drains (set_remain [] (reader res)) toks' e
            /\ Forall (fun t => (List.length (tok_bytes t) <= K)%nat
                                 /\ Q t) toks'
            /\ buf ++ remain r ++ stream_bytes toks
               = written res ++ remain (reader res) ++ stream_bytes toks'
      | Some e' => e' = e /\ written res = buf ++ stream_bytes toks
      end
    | Panic _ => False
    | Blocked | OutOfFuel => True
    end.
Proof.
  induction fuel as [|fuel IH]; intros buf i r toks Hd Hrem Hfit Hcarry;
    simpl.
  - destruct (Nat.ltb_spec i C); [exact I|]. simpl.
    split; [assumption|]. split; [assumption|]. exists toks.
    split; [|split]; auto.
  - destruct (Nat.ltb_spec i C) as [Hlt|Hge].
    2: { simpl. split; [assumption|]. split; [assumption|]. exists toks.
         split; [|split]; auto. }
    specialize (Hrem Hlt). rewrite (set_remain_nil r Hrem) in Hd.
    rewrite Hrem. simpl app.
    inversion Hd as [r0 r1 tok e0 Hn Hty Herr|r0 r1 tok toks1 e0 Hn Hty Hd1];
      subst; rewrite Hn; simpl bind; unfold fst, snd.
    + rewrite Hty. simpl. rewrite Herr. split; [reflexivity|].
      now rewrite app_nil_r.
    + pose proof (next_remain r r1 tok Hn) as Hrem1. rewrite Hrem in Hrem1.
      apply Forall_cons_iff in Hfit. destruct Hfit as [[Hfit1 _] Hfit].
      unfold stream_bytes. simpl flat_map. fold (stream_bytes toks1).
      unfold tok_bytes in Hfit1 |- *.
      destruct (typ tok) eqn:Hty'; [contradiction| |].
      * (* a rune *)
        set (enc := utf8.EncodeRune (val tok)) in *.
        destruct (Nat.ltb_spec (Nat.min (C - i) (List.length enc))
                               (List.length enc)) as [Hsplit|Hwhole].
        -- (* only a prefix fits: the loop ends *)
           replace (Read_loop fuel C
                      (buf ++ firstn (Nat.min (C - i) (List.length enc)) enc)
                      (i + List.length enc)
                      (set_remain
                         (skipn (Nat.min (C - i) (List.length enc)) enc) r1))
             with (Ok {| reader :=
                           set_remain
                             (skipn (Nat.min (C - i) (List.length enc)) enc)
                             r1;
                         written :=
                           buf ++ firstn (Nat.min (C - i) (List.length enc))
                               enc;
                         n := (i + List.length enc)%nat; rerr := None |}).
           2: { destruct fuel; simpl;
                (replace (i + List.length enc <? C)%nat with false
                  by (symmetry; apply Nat.ltb_ge; lia)); reflexivity. }
           simpl. split; [lia|].
           split; [rewrite length_skipn; lia|].
           exists toks1.
           split; [change (drains (set_remain [] r1) toks1 e);
                   now rewrite (set_remain_nil r1 Hrem1)|].
           split; [assumption|].
           rewrite <- app_assoc. f_equal. rewrite app_assoc.
           now rewrite firstn_skipn.
        -- replace (Nat.min (C - i) (List.length enc))
             with (List.length enc) by lia.
           rewrite firstn_all.
           specialize (IH (buf ++ enc) (i + List.length enc)%nat r1 toks1).
           rewrite (set_remain_nil r1 Hrem1) in IH.
           specialize (IH Hd1 (fun _ => Hrem1) Hfit).
           rewrite Hrem1 in IH. specialize (IH ltac:(simpl; lia)).
           destruct (Read_loop fuel C (buf ++ enc) (i + List.length enc) r1)
             as [res| | |]; try exact IH.
           destruct (rerr res).
           ++ destruct IH as [-> ->]. split; [reflexivity|].
              now rewrite app_assoc.
           ++ destruct IH as (H1 & H2 & toks' & H3 & H4 & H5).
              split; [assumption|]. split; [assumption|].
              exists toks'. split; [assumption|]. split; [assumption|].
              etransitivity; [|exact H5].
              simpl. now rewrite <- app_assoc.
      * (* a number *)
        set (enc := num tok) in *.
        destruct (Nat.ltb_spec (Nat.min (C - i) (List.length enc))
                               (List.length enc)) as [Hsplit|Hwhole].
        -- replace (Read_loop fuel C
                      (buf ++ firstn (Nat.min (C - i) (List.length enc)) enc)
                      (i + Nat.min (C - i) (List.length enc))
                      (set_remain
                         (skipn (Nat.min (C - i) (List.length enc)) enc) r1))
             with (Ok {| reader :=
                           set_remain
                             (skipn (Nat.min (C - i) (List.length enc)) enc)
                             r1;
                         written :=
                           buf ++ firstn (Nat.min (C - i) (List.length enc))
                               enc;
                         n := (i + Nat.min (C - i) (List.length enc))%nat;
                         rerr := None |}).
           2: { destruct fuel; simpl;
                (replace (i + Nat.min (C - i) (List.length enc) <? C)%nat
                   with false by (symmetry; apply Nat.ltb_ge; lia));
                reflexivity. }
           simpl. split; [lia|].
           split; [rewrite length_skipn; lia|].
           exists toks1.
           split; [change (drains (set_remain [] r1) toks1 e);
                   now rewrite (set_remain_nil r1 Hrem1)|].
           split; [assumption|].
           rewrite <- app_assoc. f_equal. rewrite app_assoc.
           now rewrite firstn_skipn.
        -- replace (Nat.min (C - i) (List.length enc))
             with (List.length enc) by lia.
           rewrite firstn_all.
           specialize (IH (buf ++ enc) (i + List.length enc)%nat r1 toks1).
           rewrite (set_remain_nil r1 Hrem1) in IH.
           specialize (IH Hd1 (fun _ => Hrem1) Hfit).
           rewrite Hrem1 in IH. specialize (IH ltac:(simpl; lia)).
           destruct (Read_loop fuel C (buf ++ enc) (i + List.length enc) r1)
             as [res| | |]; try exact IH.
           destruct (rerr res).
           ++ destruct IH as [-> ->]. split; [reflexivity|].
              now rewrite app_assoc.
           ++ destruct IH as (H1 & H2 & toks' & H3 & H4 & H5).
              split; [assumption|]. split; [assumption|].
              exists toks'. split; [assumption|]. split; [assumption|].
              etransitivity; [|exact H5].
              simpl. now rewrite <- app_assoc.
Qed.

Lemma tok_bytes_le_stream (toks : list token) :
  Forall (fun t => (List.length (tok_bytes t)
                    <= List.length (stream_bytes toks))%nat) toks.
Proof.
  induction toks as [|t toks IH]; constructor.
  - unfold stream_bytes. simpl. rewrite length_app. lia.
  - eapply Forall_impl; [|exact IH]. intros t' H.
    unfold stream_bytes in *. simpl. rewrite length_app. lia.
Qed.

Lemma Read_stream_aux {U : unicode.Tables} (Q : token -> Prop)
      (r : Reader) (C K : nat) (toks : list token) (e : error) :
  drains (set_remain [] r) toks e ->
  (List.length (remain r) <= C)%nat ->
  Forall (fun t => (List.length (tok_bytes t) <= K)%nat /\ Q t) toks ->
  exists res,
    Read r C = Ok res
    /\ match rerr res with
       | None =>
         List.length (written res) = C
         /\ (List.length (remain (reader res)) <= K)%nat
         /\ exists toks',
             drains (set_remain [] (reader res)) toks' e
             /\ Forall (fun t => (List.length (tok_bytes t) <= K)%nat
                                  /\ Q t) toks'
             /\ remain r ++ stream_bytes toks
                = written res ++ remain (reader res) ++ stream_bytes toks'
       | Some e' => e' = e /\ written res = remain r ++ stream_bytes toks
       end.
Proof.
  intros Hd Hcarry Hfit.
  pose proof (Read_loop_stream C K e Q (C + List.length (tokens r))
                (firstn (Nat.min C (List.length (remain r))) (remain r))
                (Nat.min C (List.length (remain r)))
                (set_remain [] r) toks Hd (fun _ => eq_refl) Hfit
                ltac:(simpl; lia)) as H.
  fold (Read r C) in H.
  destruct (Read_total r C) as [[res HR]|[m HR]]; rewrite HR in H;
    [|contradiction].
  exists res. split; [exact HR|].
  replace (Nat.min C (List.length (remain r)))
    with (List.length (remain r)) in H by lia.
  rewrite firstn_all in H. simpl remain in H. simpl app in H.
  destruct (rerr res) eqn:Herr; [exact H|].
  destruct H as (Hn & Hrem' & toks' & H1 & H2 & H3).
  destruct (Read_result_bounds_aux r C res HR) as (Hw & _).
  split; [lia|]. split; [assumption|]. exists toks'.
  split; [assumption|]. split; assumption.
Qed.

(** X13. One [Read] call delivers the next bytes of the translation.
    Let the calls of [next] return the tokens [toks] and then the error
    [e], and let the carry buffer fit into the buffer.  Then [Read]
    returns; if it returns no error, the buffer is full and the bytes
    stored, followed by the new carry buffer and the bytes of the tokens
    not yet received, are the old carry buffer followed by the bytes of
    [toks]: nothing is lost, repeated or reordered.  If it returns an
    error, the error is [e] and the bytes stored are all that was left. *)
Theorem Read_delivers_next_bytes {U : unicode.Tables}
        (r : Reader) (C : nat) (toks : list token) (e : error) :
  drains (set_remain [] r) toks e ->
  (List.length (remain r) <= C)%nat ->
  exists res,
    Read r C = Ok res
    /\ match rerr res with
       | None =>
         List.length (written res) = C
         /\ exists toks',
             drains (set_remain [] (reader res)) toks' e
             /\ remain r ++ stream_bytes toks
                = written res ++ remain (reader res) ++ stream_bytes toks'
       | Some e' => e' = e /\ written res = remain r ++ stream_bytes toks
       end.
Proof.
  intros Hd Hcarry.
  destruct (Read_stream_aux (fun _ => True) r C
                            (List.length (stream_bytes toks)) toks e
                            Hd Hcarry
                            (Forall_impl _ (fun t H => conj H I)
                                         (tok_bytes_le_stream toks)))
    as (res & HR & H).
  exists res. split; [exact HR|].
  destruct (rerr res); [exact H|].
  destruct H as (Hw & _ & toks' & H1 & _ & H3).
  split; [assumption|]. exists toks'. split; assumption.
Qed.

Lemma Read_delivers_next_bytes_witness :
  let r := NewReader (source (runes "[1,0xff]")) in
  let toks := [rune_token (rn "["); rune_token (rn "1");
               rune_token (rn ","); number_token (runes "255");
               rune_token (rn "]")] in
  drains (U := unicode.Latin1) (set_remain [] r) toks io_EOF
  /\ (List.length (remain r) <= 4)%nat
  /\ exists res,
      Read (U := unicode.Latin1) r 4 = Ok res
      /\ match rerr res with
         | None =>
           List.length (written res) = 4%nat
           /\ exists toks',
               drains (U := unicode.Latin1)
                      (set_remain [] (reader res)) toks' io_EOF
               /\ remain r ++ stream_bytes toks
                  = written res ++ remain (reader res) ++ stream_bytes toks'
         | Some e' =>
           e' = io_EOF /\ written res = remain r ++ stream_bytes toks
         end.
Proof.
  intros r toks.
  assert (Hd : drains (U := unicode.Latin1) (set_remain [] r) toks io_EOF).
  { repeat (eapply drains_token;
            [vm_compute; reflexivity | discriminate |]).
    eapply drains_error; [vm_compute; reflexivity | reflexivity
                          | reflexivity]. }
  assert (Hcarry : (List.length (remain r) <= 4)%nat) by (simpl; lia).
  split; [exact Hd|]. split; [exact Hcarry|].
  exact (Read_delivers_next_bytes (U := unicode.Latin1) r 4 toks io_EOF
                                  Hd Hcarry).
Defined.

(** The count of a [Read] along a stream whose rune tokens are written
    as one byte each: it never exceeds the length of the buffer. *)
Lemma Read_loop_count {U : unicode.Tables} (C : nat) (e : error) :
  forall fuel buf i r toks res,
    drains (set_remain [] r) toks e ->
    ((i < C)%nat -> remain r = []) ->
    Forall single_byte toks ->
    (i <= C)%nat ->
    Read_loop fuel C buf i r = Ok res ->
    (n res <= C)%nat.
Proof.
  induction fuel as [|fuel IH]; intros buf i r toks res Hd Hrem H1 Hi HR;
    simpl in HR; destruct (Nat.ltb_spec i C) as [Hlt|Hge];
    try discriminate HR;
    try (injection HR as <-; simpl; exact Hi).
  specialize (Hrem Hlt). rewrite (set_remain_nil r Hrem) in Hd.
  inversion Hd as [r0 r1 tok e0 Hn Hty Herr|r0 r1 tok toks1 e0 Hn Hty Hd1];
    subst; rewrite Hn in HR; simpl bind in HR; unfold fst, snd in HR.
  - rewrite Hty in HR. injection HR as <-. simpl. exact Hi.
  - pose proof (next_remain r r1 tok Hn) as Hrem1. rewrite Hrem in Hrem1.
    apply Forall_cons_iff in H1. destruct H1 as [Hone H1].
    unfold single_byte in Hone.
    destruct (typ tok) eqn:Hty'; [contradiction| |].
    + rewrite (Hone eq_refl) in HR.
      replace (Nat.min (C - i) 1) with 1%nat in HR by lia.
      simpl Nat.ltb in HR. cbv iota in HR.
      eapply (IH _ _ r1 toks1); [|intros _; exact Hrem1|exact H1| |exact HR].
      * now rewrite (set_remain_nil r1 Hrem1).
      * lia.
    + destruct (Nat.ltb_spec (Nat.min (C - i) (List.length (num tok)))
                             (List.length (num tok))) as [Hsplit|Hwhole].
      * eapply (IH _ _ _ toks1); [| |exact H1| |exact HR].
        -- change (drains (set_remain [] r1) toks1 e).
           now rewrite (set_remain_nil r1 Hrem1).
        -- intros Hlt'. lia.
        -- lia.
      * eapply (IH _ _ r1 toks1);
          [|intros _; exact Hrem1|exact H1| |exact HR].
        -- now rewrite (set_remain_nil r1 Hrem1).
        -- lia.
Qed.

Lemma Read_count {U : unicode.Tables}
      (r : Reader) (C : nat) (toks : list token) (e : error)
      (res : ReadResult) :
  drains (set_remain [] r) toks e -> Forall single_byte toks ->
  Read r C = Ok res ->
  (n res <= C)%nat /\ firstn (n res) (written res) = written res.
Proof.
  intros Hd H1 HR.
  assert (Hn : (n res <= C)%nat).
  { unfold Read in HR.
    eapply (Read_loop_count C e _ _ _ (set_remain [] r) toks res);
      [exact Hd | reflexivity | exact H1 | | exact HR].
    apply Nat.le_min_l. }
  split; [exact Hn|].
  destruct (Read_result_bounds_aux r C res HR) as (Hw & _).
  apply firstn_all2. lia.
Qed.

(** X14. For output whose runes are written as one byte each, the
    translation does not depend on the buffer size.  Let the calls of
    [next] return the tokens [toks] and then the error [e], every rune
    token of [toks] holding a rune that UTF-8 writes as one byte.  For
    every buffer length [C] that is not zero, holds the carry buffer and
    holds each token, a caller that keeps [buf[:n]] after every [Read]
    with a buffer of length [C] never panics and collects, until the
    error, the carry buffer followed by the bytes of [toks], and then
    [e]. *)
Theorem ReadAll_independent_of_buffer_size {U : unicode.Tables}
        (r : Reader) (C : nat) (toks : list token) (e : error) :
  drains (set_remain [] r) toks e ->
  (0 < C)%nat -> (List.length (remain r) <= C)%nat ->
  Forall (fun t => (List.length (tok_bytes t) <= C)%nat) toks ->
  Forall single_byte toks ->
  exists calls,
    ReadAll calls C r = Ok (remain r ++ stream_bytes toks, Some e).
Proof.
  intros Hd HC Hcarry Hfit H1.
  assert (Hboth : Forall (fun t => (List.length (tok_bytes t) <= C)%nat
                                   /\ single_byte t) toks).
  { apply Forall_forall. intros t Ht. split.
    - exact (proj1 (Forall_forall _ _) Hfit t Ht).
    - exact (proj1 (Forall_forall _ _) H1 t Ht). }
  clear Hfit H1.
  remember (List.length (remain r ++ stream_bytes toks)) as m eqn:Hm.
  assert (Hle : (List.length (remain r ++ stream_bytes toks) <= m)%nat)
    by lia.
  clear Hm. revert r toks Hd Hcarry Hboth Hle.
  induction m as [|m IH]; intros r toks Hd Hcarry Hboth Hle;
    destruct (Read_stream_aux single_byte r C C toks e Hd Hcarry Hboth)
      as (res & HR & H);
    destruct (Read_count r C toks e res Hd
                (Forall_impl _ (fun t Ht => proj2 Ht) Hboth) HR)
      as [Hn Hgot];
    apply Nat.ltb_ge in Hn;
    destruct (rerr res) eqn:Herr.
  - destruct H as [-> Hw]. exists 1%nat. simpl. rewrite HR. simpl.
    rewrite Hn, Herr, Hgot, Hw. reflexivity.
  - destruct H as (Hw & _ & toks' & _ & _ & Heq).
    rewrite Heq, length_app in Hle. lia.
  - destruct H as [-> Hw]. exists 1%nat. simpl. rewrite HR. simpl.
    rewrite Hn, Herr, Hgot, Hw. reflexivity.
  - destruct H as (Hw & Hrem' & toks' & Hd' & Hboth' & Heq).
    destruct (IH (reader res) toks' Hd' Hrem' Hboth') as [calls Hcalls].
    { rewrite Heq, length_app in Hle. lia. }
    exists (S calls). simpl. rewrite HR. simpl.
    rewrite Hn, Herr, Hgot, Hcalls.
    simpl. rewrite Heq. reflexivity.
Qed.

Lemma ReadAll_independent_of_buffer_size_witness :
  let r := NewReader (source (runes "[1,0xff]")) in
  let toks := [rune_token (rn "["); rune_token (rn "1");
               rune_token (rn ","); number_token (runes "255");
               rune_token (rn "]")] in
  drains (U := unicode.Latin1) (set_remain [] r) toks io_EOF
  /\ Forall single_byte toks
  /\ (exists calls,
         ReadAll (U := unicode.Latin1) calls 3 r
         = Ok (runes "[1,255]", Some io_EOF))
  /\ (exists calls,
         ReadAll (U := unicode.Latin1) calls 64 r
         = Ok (runes "[1,255]", Some io_EOF)).
Proof.
  intros r toks.
  assert (Hd : drains (U := unicode.Latin1) (set_remain [] r) toks io_EOF).
  { repeat (eapply drains_token;
            [vm_compute; reflexivity | discriminate |]).
    eapply drains_error; [vm_compute; reflexivity | reflexivity
                          | reflexivity]. }
  assert (Hfit : forall C, (3 <= C)%nat ->
                           Forall (fun t => (List.length (tok_bytes t)
                                             <= C)%nat) toks).
  { intros C HC. repeat constructor; simpl; lia. }
  assert (H1 : Forall single_byte toks).
  { repeat constructor; intros H; try discriminate H; reflexivity. }
  split; [exact Hd|]. split; [exact H1|]. split.
  - apply (ReadAll_independent_of_buffer_size
             (U := unicode.Latin1) r 3 toks io_EOF Hd);
      [lia | simpl; lia | apply Hfit; lia | exact H1].
  - apply (ReadAll_independent_of_buffer_size
             (U := unicode.Latin1) r 64 toks io_EOF Hd);
      [lia | simpl; lia | apply Hfit; lia | exact H1].
Defined.

(** ** Every translation ends *)

Lemma step_measure_consumed (f f' : stateFunc) (r r' : Reader) :
  (List.length (pending (rd r')) < List.length (pending (rd r)))%nat ->
  (forall e, f <> St_err e) ->
  (step_measure f' r' < step_measure f r)%nat.
Proof.
  intros Hlen Hf. unfold step_measure, measure.
  pose proof (weight_le f' (pending (rd r'))).
  pose proof (weight_ge f (pending (rd r)) Hf).
  destruct f'; destruct f; lia.
Qed.

Lemma step_measure_to_err (f : stateFunc) (e : error) (r r' : Reader) :
  (List.length (pending (rd r')) <= List.length (pending (rd r)))%nat ->
  (forall e, f <> St_err e) ->
  (step_measure (St_err e) r' < step_measure f r)%nat.
Proof.
  intros Hlen Hf. unfold step_measure, measure.
  pose proof (weight_ge f (pending (rd r)) Hf). simpl weight.
  destruct f; lia.
Qed.

Ltac solve_smaller :=
  subst; unfold UnreadRune; simpl;
  first
    [ apply step_measure_to_err;
      [ simpl; repeat match goal with
                      | H : pending (rd _) = _ |- _ => rewrite H
                      end; simpl; lia
      | discriminate ]
    | apply step_measure_consumed;
      [ simpl; repeat match goal with
                      | H : pending (rd _) = _ |- _ => rewrite H
                      end; simpl; lia
      | discriminate ] ].

Ltac crunch_smaller Hq :=
  repeat first
    [ match goal with
      | |- _ (lex_spaces _ _ _) => fail 2
      end
    | progress (unfold_setters; simpl; rewrite ?Hq; simpl)
    | split_result ].

Lemma lex_spaces_smaller {U : unicode.Tables} (r0 : Reader) :
  forall fuel b r,
    (List.length (pending (rd (if unicode.IsSpace b then r else push r)))
     < List.length (pending (rd r0)))%nat ->
    step_smaller St_lex r0 (lex_spaces fuel b r).
Proof.
  induction fuel as [|fuel IH]; intros b r Hlen;
    rewrite lex_spaces_unfold; destruct (unicode.IsSpace b) eqn:Hb;
    try exact I.
  - unfold step_smaller. apply step_measure_consumed;
      [exact Hlen | discriminate].
  - destruct (pop_cases r) as [[E H]|(b' & rest & E & H)]; rewrite H.
    + unfold step_smaller, Reader_err.
      apply step_measure_to_err; [simpl; lia | discriminate].
    + apply IH. rewrite E in Hlen. simpl in Hlen.
      destruct (unicode.IsSpace b'); simpl; lia.
  - unfold step_smaller. apply step_measure_consumed;
      [exact Hlen | discriminate].
Qed.

Ltac hand_over_to_number Hpend :=
  unfold step_measure, measure, UnreadRune; simpl; rewrite Hpend; simpl;
  match goal with
  | |- context [starts_number ?x] =>
    replace (starts_number x) with true; [lia|];
    symmetry; unfold starts_number;
    repeat match goal with
           | H : (_ =? _) = false |- _ => rewrite H; clear H
           end;
    assumption
  end.

Lemma lex_smaller {U : unicode.Tables} (r : Reader) :
  tokens r = [] -> step_smaller St_lex r (lex r).
Proof.
  intros Hq. unfold lex.
  crunch_smaller Hq.
  all: try exact I.
  all: try solve [solve_smaller].
  - apply lex_spaces_smaller.
    match goal with H : unicode.IsSpace _ = true |- _ => rewrite H end.
    simpl. rewrite Hpend. simpl. lia.
  - hand_over_to_number Hpend.
  - hand_over_to_number Hpend.
Qed.

Lemma lexIdentifier_smaller {U : unicode.Tables} (r : Reader) :
  tokens r = [] -> step_smaller St_lexIdentifier r (lexIdentifier r).
Proof.
  intros Hq. unfold lexIdentifier.
  crunch_smaller Hq.
  all: try exact I.
  all: try solve [solve_smaller].
  unfold step_measure, measure, UnreadRune. simpl. rewrite Hpend. simpl.
  match goal with H : (_ =? rn ":") = true |- _ =>
    apply Z.eqb_eq in H; subst end.
  simpl. lia.
Qed.

Lemma lexNumber_smaller (r : Reader) :
  tokens r = [] -> step_smaller St_lexNumber r (lexNumber r).
Proof.
  intros Hq. unfold lexNumber.
  crunch_smaller Hq.
  all: try exact I.
  all: try solve [solve_smaller].
  unfold step_measure, measure, UnreadRune. simpl. rewrite Hpend. simpl.
  rewrite not_number_rune by assumption. lia.
Qed.

Lemma lexString_smaller (r : Reader) :
  tokens r = [] -> step_smaller St_lexString r (lexString r).
Proof.
  intros Hq. unfold lexString.
  crunch_smaller Hq.
  all: try exact I.
  all: solve_smaller.
Qed.

Lemma lexLineComment_loop_smaller (r0 : Reader) :
  forall fuel r,
    (List.length (pending (rd r)) <= List.length (pending (rd r0)))%nat ->
    step_smaller St_lexLineComment r0 (lexLineComment_loop fuel r).
Proof.
  induction fuel as [|fuel IH]; intros r Hlen; [exact I|].
  simpl.
  destruct (pop_cases r) as [[E H]|(b & rest & E & H)]; rewrite H; clear H.
  - unfold step_smaller, Reader_err.
    apply step_measure_to_err; [simpl; lia | discriminate].
  - rewrite E in Hlen. simpl in Hlen. destruct (b =? newline).
    + unfold step_smaller. apply step_measure_consumed;
        [simpl; lia | discriminate].
    + apply IH. simpl. lia.
Qed.

Lemma lexHex_loop_smaller (r0 : Reader) :
  forall fuel out r,
    (out = [] /\ List.length (pending (rd r))
                 = List.length (pending (rd r0)))
    \/ (List.length (pending (rd r)) < List.length (pending (rd r0)))%nat ->
    step_smaller St_lexHex r0 (lexHex_loop fuel out r).
Proof.
  induction fuel as [|fuel IH]; intros out r Hlen; [exact I|].
  simpl.
  destruct (pop_cases r) as [[E H]|(b & rest & E & H)]; rewrite H; clear H.
  - unfold step_smaller, Reader_err.
    apply step_measure_to_err; [simpl; lia | discriminate].
  - rewrite E in Hlen. simpl in Hlen.
    destruct (not_in "0123456789abcdefABCDEF" b).
    + unfold lexHex_parse.
      destruct Hlen as [[-> Hlen]|Hlen]; [exact I|].
      destruct (strconv.ParseInt16 out); [|exact I].
      unfold send. destruct (_ <? _)%nat; [|exact I]. simpl.
      apply step_measure_consumed; [simpl; lia | discriminate].
    + apply IH. right. simpl. lia.
Qed.

Lemma call_smaller {U : unicode.Tables} (f : stateFunc) (r : Reader) :
  tokens r = [] -> (forall e, f <> St_err e) ->
  step_smaller f r (call f r).
Proof.
  intros Hq Hf. destruct f; simpl.
  - now apply lex_smaller.
  - now apply lexIdentifier_smaller.
  - now apply lexNumber_smaller.
  - unfold lexHex. apply lexHex_loop_smaller. left. split; reflexivity.
  - now apply lexString_smaller.
  - unfold lexLineComment. apply lexLineComment_loop_smaller. lia.
  - now contradiction (Hf e).
Qed.

Lemma step_smaller_step {U : unicode.Tables} (r r1 : Reader) :
  tokens r = [] -> (forall e, state r <> St_err e) -> step r = Ok r1 ->
  (step_measure (state r1) r1 < step_measure (state r) r)%nat.
Proof.
  intros Hq Hs Hstep. pose proof (call_smaller (state r) r Hq Hs) as H.
  unfold step in Hstep.
  destruct (call (state r) r) as [[f' r']| | |]; simpl in Hstep;
    try discriminate Hstep.
  injection Hstep as <-. exact H.
Qed.

(** A call of [next] never makes the measure larger, and leaves at most
    two tokens queued unless it only took one off a longer queue. *)
Lemma next_loop_measure {U : unicode.Tables} :
  forall fuel r tok r',
    next_loop fuel r = Ok (tok, r') ->
    (step_measure (state r') r' <= step_measure (state r) r)%nat
    /\ (List.length (tokens r')
        <= Nat.max 2 (List.length (tokens r) - 1))%nat.
Proof.
  assert (Hqueued : forall r t q tok r',
             tokens r = t :: q -> Ok (t, set_tokens q r) = Ok (tok, r') ->
             (step_measure (state r') r' <= step_measure (state r) r)%nat
             /\ (List.length (tokens r')
                 <= Nat.max 2 (List.length (tokens r) - 1))%nat).
  { intros r t q tok r' Hq H. injection H as <- <-. rewrite Hq.
    split; [apply Nat.le_refl|].
    change (List.length (tokens (set_tokens q r))) with (List.length q).
    cbn [List.length]. lia. }
  induction fuel as [|fuel IH]; intros r tok r' H; simpl in H;
    destruct (tokens r) as [|t q] eqn:Hq;
    try discriminate H;
    try (rewrite <- Hq; eapply Hqueued; eassumption).
  destruct (sink_or_lexing (state r)) as [[e Hs]|Hne].
  - rewrite (step_sink r e Hs Hq) in H. simpl in H.
    rewrite (next_loop_queued fuel _ (error_token e) []) in H
      by reflexivity.
    injection H as <- <-. split; [apply Nat.le_refl|].
    cbn [tokens set_tokens List.length]. lia.
  - pose proof (step_lexing r Hq Hne) as Hstep.
    pose proof (step_smaller_step r) as Hlt.
    destruct (step r) as [r1| |m|]; simpl in H; try discriminate H.
    destruct Hstep as (Hlen & _).
    specialize (Hlt r1 Hq Hne eq_refl).
    destruct (IH r1 tok r' H) as [Hm Hl]. split; [lia|].
    cbn [List.length]. lia.
Qed.

(** From an empty queue and a lexing state, a call of [next] that
    returns a token has made the measure smaller. *)
Lemma next_smaller {U : unicode.Tables} (r r' : Reader) (tok : token) :
  tokens r = [] -> (forall e, state r <> St_err e) ->
  next r = Ok (tok, r') ->
  (step_measure (state r') r' < step_measure (state r) r)%nat
  /\ (List.length (tokens r') <= 2)%nat.
Proof.
  intros Hq Hs H.
  pose proof (step_lexing r Hq Hs) as Hstep.
  pose proof (step_smaller_step r) as Hlt.
  pose proof (next_step r) as Hnext.
  destruct (step r) as [r1| |m|] eqn:E.
  - destruct Hstep as (Hlen & _).
    specialize (Hlt r1 Hq Hs eq_refl).
    rewrite (Hnext r1 Hq eq_refl) in H.
    destruct (next_loop_measure _ _ _ _ H) as [Hm Hl]. lia.
  - contradiction.
  - unfold next, next_fuel in H. rewrite Nat.add_succ_r in H.
    simpl next_loop in H. rewrite Hq, E in H. discriminate H.
  - contradiction.
Qed.

(** The error sink, on an empty queue, answers [next] with its error
    token. *)
Lemma next_sink {U : unicode.Tables} (r : Reader) (e : error) :
  tokens r = [] -> state r = St_err e ->
  next r = Ok (error_token e, set_tokens [] (set_tokens [error_token e] r)).
Proof.
  intros Hq Hs.
  rewrite (next_step r _ Hq (step_sink r e Hs Hq)).
  apply next_queued. reflexivity.
Qed.

Lemma translation_ends_aux {U : unicode.Tables} :
  forall bound r,
    Inv r ->
    (3 * step_measure (state r) r + List.length (tokens r) < bound)%nat ->
    (exists toks e, drains r toks e) \/ panics r.
Proof.
  induction bound as [|bound IH]; intros r HI Hb; [lia|].
  destruct (next_total r) as [[[tok r'] Hn]|[m Hn]].
  2: { right. eapply panics_now. exact Hn. }
  destruct (next_inv r tok r' HI Hn) as (HI' & _ & [Hlex|Herr]).
  - assert (Hlt : (3 * step_measure (state r') r'
                   + List.length (tokens r')
                   < 3 * step_measure (state r) r
                     + List.length (tokens r))%nat).
    { destruct (tokens r) as [|t q] eqn:Hq.
      - destruct (sink_or_lexing (state r)) as [[e Hs]|Hne].
        + rewrite (next_sink r e Hq Hs) in Hn. injection Hn as <- <-.
          destruct Hlex as [Hty _]. now contradiction Hty.
        + destruct (next_smaller r r' tok Hq Hne Hn).
          cbn [List.length]. lia.
      - rewrite (next_queued r t q Hq) in Hn. injection Hn as <- <-.
        change (step_measure (state (set_tokens q r)) (set_tokens q r))
          with (step_measure (state r) r).
        cbn [tokens set_tokens List.length]. lia. }
    destruct Hlex as [Hty _].
    destruct (IH r' HI') as [(toks & e & Hd)|Hp]; [lia| |].
    + left. exists (tok :: toks), e. eapply drains_token; eassumption.
    + right. eapply panics_later; eassumption.
  - destruct Herr as (e & -> & _). left. exists [], e.
    eapply drains_error; [exact Hn | reflexivity | reflexivity].
Qed.

(** X15.  Every translation ends: from any reader that satisfies the
    invariant, successive calls of [next] return finitely many tokens
    and then either an error token (the end of the input or a fault) or
    a panic.  The reader never goes on returning tokens for ever. *)
Theorem translation_ends {U : unicode.Tables} (r : Reader) :
  Inv r -> (exists toks e, drains r toks e) \/ panics r.
Proof.
  intros HI. eapply translation_ends_aux; [exact HI|].
  apply Nat.lt_succ_diag_r.
Qed.

Lemma translation_ends_witness :
  let r := NewReader (source (runes "{a:[1,0xff]}")) in
  Inv r
  /\ ((exists toks e, drains (U := unicode.Latin1) r toks e)
      \/ panics (U := unicode.Latin1) r).
Proof.
  intros r.
  assert (HI : Inv r).
  { split; [constructor | intros e He; discriminate He]. }
  split; [exact HI | exact (translation_ends r HI)].
Defined.

(** ** A slash that opens no comment *)

(** X16.  Only [//] opens a comment.  A slash followed by any other rune
    is dropped without a token and without an error: [lex] returns to
    itself with that rune next to be read, the queue and the comma and
    key flags as they were, and the column one further.  The rune is
    read and pushed back, and [push] does not take back the line count:
    when the rune is a line break the line has already been counted. *)
Theorem lex_drops_lone_slash {U : unicode.Tables}
        (r : Reader) (c : rune) (rest : list rune) :
  pending (rd r) = rn "/" :: c :: rest -> c <> rn "/" ->
  exists r',
    lex r = Ok (St_lex, r')
    /\ pending (rd r') = c :: rest
    /\ tokens r' = tokens r
    /\ comma r' = comma r /\ noident r' = noident r
    /\ col r' = int_succ (col r)
    /\ line r' = (if c =? newline then int_succ (line r) else line r).
Proof.
  intros Hp Hc. apply Z.eqb_neq in Hc.
  unfold lex. rewrite (pop_cons r _ _ Hp).
  cbn [orb]. change (rn "/" =? dquote) with false.
  change (rn "/" =? rn "'") with false. cbn [orb].
  change (rn "/" =? rn "/") with true. cbv iota.
  rewrite (pop_cons (advance (rn "/") (c :: rest) r) c rest eq_refl).
  rewrite Hc. eexists. split; [reflexivity|].
  unfold push, advance, UnreadRune, set_rd, set_pos. simpl.
  repeat split; reflexivity.
Qed.

Lemma lex_drops_lone_slash_witness :
  let r := NewReader (source (runes "/*x*/")) in
  pending (rd r) = rn "/" :: rn "*" :: runes "x*/" /\ rn "*" <> rn "/"
  /\ exists r',
      lex (U := unicode.Latin1) r = Ok (St_lex, r')
      /\ pending (rd r') = rn "*" :: runes "x*/"
      /\ tokens r' = tokens r
      /\ comma r' = comma r /\ noident r' = noident r
      /\ col r' = int_succ (col r)
      /\ line r' = (if rn "*" =? newline then int_succ (line r)
                    else line r).
Proof.
  intros r.
  assert (Hp : pending (rd r) = rn "/" :: rn "*" :: runes "x*/")
    by reflexivity.
  assert (Hc : rn "*" <> rn "/") by discriminate.
  split; [exact Hp|]. split; [exact Hc|].
  exact (lex_drops_lone_slash r (rn "*") (runes "x*/") Hp Hc).
Defined.
